(** * lex-go: the tuple layer and its subspaces

    A shallow embedding of the Go packages [tuple] (order-preserving
    encoding of tuples into byte keys) and [subspace] (keys under a fixed
    byte prefix), followed by the properties of the encoding:
    round trip, order preservation, self-delimitation, prefix ranges,
    decode and encode failures.

    Conventions.  A Go [byte] is a [Byte.byte]; a [[]byte] and a Go
    [string] are lists of bytes; Go's [int], [int64] and [uint64] values
    are integers of [Z], with the wrap-around of the conversions and of
    the 64-bit arithmetic written out ([int64], [uint64] below).  A run
    time panic and the two results of [(Tuple, error)] are explicit. *)

From Stdlib Require Import ZArith List Lia Bool String.
From Stdlib Require Import Strings.Byte.
Import ListNotations.
Open Scope Z_scope.

Abbreviation byte := Byte.byte.

(** ** Machine integers *)

(** [int(c)], [int64(c)] for a byte [c]. *)
Definition byteZ (c : byte) : Z := Z.of_N (Byte.to_N c).

(** The conversion [byte(z)]: the low eight bits. *)
Definition mkbyte (z : Z) : byte :=
  match Byte.of_N (Z.to_N (z mod 256)) with
  | Some c => c
  | None => Byte.x00
  end.

(** The conversion [uint64(z)]. *)
Definition uint64 (z : Z) : Z := z mod 2 ^ 64.

(** The conversion [int64(z)], also the result of 64-bit signed
    arithmetic on the exact result [z]. *)
Definition int64 (z : Z) : Z := (z + 2 ^ 63) mod 2 ^ 64 - 2 ^ 63.

Definition is_int64 (z : Z) : bool := (- 2 ^ 63 <=? z) && (z <? 2 ^ 63).
Definition is_uint64 (z : Z) : bool := (0 <=? z) && (z <? 2 ^ 64).
Definition is_uint32 (z : Z) : bool := (0 <=? z) && (z <? 2 ^ 32).

(** ** Outcomes of a call *)

Inductive panic : Type :=
| IndexOutOfRange
| SliceBoundsOutOfRange
  (** [panic(fmt.Sprintf("unencodable element at index %d (%v, type %T)",
      i, t[i], t[i]))]: the index, the printed value and the printed type. *)
| Unencodable (index : Z) (v : string) (T : string).

(** A call returns, panics, or (for the loops that are run on a budget of
    iterations) has not finished within the budget. *)
Inductive Result (A : Type) : Type :=
| Ok (a : A)
| Panic (p : panic)
| Unfinished.

Arguments Ok {A} a.
Arguments Panic {A} p.
Arguments Unfinished {A}.

Definition bind {A B : Type} (r : Result A) (k : A -> Result B) : Result B :=
  match r with
  | Ok a => k a
  | Panic p => Panic p
  | Unfinished => Unfinished
  end.

Notation "x <- r ;; k" := (bind r (fun x => k))
  (at level 61, r at next level, right associativity).
Notation "' p <- r ;; k" := (bind r (fun x => let p := x in k))
  (at level 61, p pattern, r at next level, right associativity).

Inductive error : Type :=
  (** [fmt.Errorf("unable to decode tuple element with unknown typecode
      %02x", c)] *)
| Errorf_unknown_typecode (c : byte)
  (** [errors.New(msg)] *)
| errors_New (msg : string).

(** ** Slices

    A slice is the list of its elements; where a slice expression may
    reach past the length, into the capacity, the elements of the backing
    array between length and capacity are passed along as [spare]. *)

Definition len {A : Type} (s : list A) : Z := Z.of_nat (List.length s).

(** [s[i]] *)
Definition index {A : Type} (s : list A) (i : Z) : Result A :=
  if (0 <=? i) && (i <? len s) then
    match nth_error s (Z.to_nat i) with
    | Some x => Ok x
    | None => Panic IndexOutOfRange
    end
  else Panic IndexOutOfRange.

(** [s[lo:]] *)
Definition sliceFrom {A : Type} (s : list A) (lo : Z) : Result (list A) :=
  if (0 <=? lo) && (lo <=? len s) then Ok (skipn (Z.to_nat lo) s)
  else Panic SliceBoundsOutOfRange.

(** [s[lo:hi]]: [hi] is checked against the capacity. *)
Definition slice {A : Type} (s spare : list A) (lo hi : Z) : Result (list A) :=
  if (0 <=? lo) && (lo <=? hi) && (hi <=? len s + len spare) then
    Ok (firstn (Z.to_nat (hi - lo)) (skipn (Z.to_nat lo) (s ++ spare)))
  else Panic SliceBoundsOutOfRange.

(** [make([]byte, n)] *)
Definition make (n : Z) : list byte := repeat Byte.x00 (Z.to_nat n).

(** [copy(dst, src)], as the new contents of [dst]. *)
Definition copy {A : Type} (dst src : list A) : list A :=
  firstn (List.length dst) src ++ skipn (List.length src) dst.

(** [copy(r[off:], src)], as the new contents of [r]. *)
Definition copyAt {A : Type} (r : list A) (off : Z) (src : list A) : Result (list A) :=
  tl <- sliceFrom r off ;;
  Ok (firstn (Z.to_nat off) r ++ copy tl src).

(** ** Package [bytes] *)

Module bytes.

(** [bytes.IndexByte(b, c)]: the first index of [c], or -1. *)
Fixpoint IndexByte_from (b : list byte) (c : byte) (i : Z) : Z :=
  match b with
  | [] => -1
  | x :: r => if Byte.eqb x c then i else IndexByte_from r c (i + 1)
  end.

Definition IndexByte (b : list byte) (c : byte) : Z := IndexByte_from b c 0.

(** [bytes.Equal] *)
Fixpoint Equal (a b : list byte) : bool :=
  match a, b with
  | [], [] => true
  | x :: a', y :: b' => Byte.eqb x y && Equal a' b'
  | _, _ => false
  end.

(** [bytes.HasPrefix(s, prefix)] *)
Definition HasPrefix (s prefix : list byte) : bool :=
  (len prefix <=? len s) && Equal (firstn (List.length prefix) s) prefix.

(** [bytes.Replace(s, old, new, -1)] for a non-empty [old]: the
    occurrences of [old] are replaced from the left, without overlap.
    [skip] counts the bytes of a matched occurrence still to pass. *)
Fixpoint Replace_skip (skip : nat) (s old new : list byte) : list byte :=
  match s with
  | [] => []
  | x :: r =>
      match skip with
      | S k => Replace_skip k r old new
      | O =>
          if HasPrefix s old then new ++ Replace_skip (List.length old - 1) r old new
          else x :: Replace_skip 0 r old new
      end
  end.

Definition Replace (s old new : list byte) : list byte := Replace_skip 0 s old new.

(** [bytes.Compare]: the byte-lexicographic order. *)
Fixpoint Compare (a b : list byte) : comparison :=
  match a, b with
  | [], [] => Eq
  | [], _ :: _ => Lt
  | _ :: _, [] => Gt
  | x :: a', y :: b' =>
      match Z.compare (byteZ x) (byteZ y) with
      | Eq => Compare a' b'
      | c => c
      end
  end.

(** [bytes.Buffer], by its contents. *)
Definition Buffer : Type := list byte.
Definition WriteByte (buf : Buffer) (c : byte) : Buffer := buf ++ [c].
Definition Write (buf : Buffer) (p : list byte) : Buffer := buf ++ p.
Definition Bytes (buf : Buffer) : list byte := buf.

End bytes.

(** ** Package [encoding/binary], big endian *)

Module binary.

(** The [n] low-order bytes of [v], most significant first. *)
Fixpoint bigEndian (n : nat) (v : Z) : list byte :=
  match n with
  | O => []
  | S k => mkbyte (v / 2 ^ (8 * Z.of_nat k)) :: bigEndian k v
  end.

(** The number a byte sequence denotes, most significant first. *)
Definition fromBigEndian (bs : list byte) : Z :=
  fold_left (fun acc c => acc * 256 + byteZ c) bs 0.

(** [binary.Write(&ibuf, binary.BigEndian, i)] for an [int64] [i]. *)
Definition Write (ibuf : bytes.Buffer) (i : Z) : bytes.Buffer :=
  bytes.Write ibuf (bigEndian 8 (uint64 i)).

(** [binary.Read(bytes.NewBuffer(bp), binary.BigEndian, &ret)] for an
    [int64] [ret] and eight bytes [bp]. *)
Definition Read (bp : list byte) : Z := int64 (fromBigEndian (firstn 8 bp)).

End binary.

(** ** Package [lex] *)

Module lex.

(** Modelled from the spec: the declarations of [lex.Key] and
    [lex.KeyConvertible] are not among the sources.  A key is a byte
    string (the code converts between [[]byte] and [lex.Key]), and a
    byte-convertible value presents itself as one through [LexKey]. *)
Definition Key : Type := list byte.

(** [type KeySelector struct], its key given as the key [LexKey] returns. *)
Record KeySelector : Type := {
  KeySelector_Key : Key;
  OrEqual : bool;
  Offset : Z
}.

Definition LexKeySelector (ks : KeySelector) : KeySelector := ks.

Definition LastLessThan (key : Key) : KeySelector :=
  {| KeySelector_Key := key; OrEqual := false; Offset := 0 |}.

Definition LastLessOrEqual (key : Key) : KeySelector :=
  {| KeySelector_Key := key; OrEqual := true; Offset := 0 |}.

Definition FirstGreaterThan (key : Key) : KeySelector :=
  {| KeySelector_Key := key; OrEqual := true; Offset := 1 |}.

Definition FirstGreaterOrEqual (key : Key) : KeySelector :=
  {| KeySelector_Key := key; OrEqual := false; Offset := 1 |}.

(** [type KeyRange struct] and its two methods. *)
Record KeyRange : Type := { KeyRange_Begin : Key; KeyRange_End : Key }.

Definition KeyRange_LexRangeKeys (kr : KeyRange) : Key * Key :=
  (KeyRange_Begin kr, KeyRange_End kr).

Definition KeyRange_LexRangeKeySelectors (kr : KeyRange) : KeySelector * KeySelector :=
  (FirstGreaterOrEqual (KeyRange_Begin kr), FirstGreaterOrEqual (KeyRange_End kr)).

(** [type SelectorRange struct] and its method; a [Selectable] is given
    by the selector [LexKeySelector] returns. *)
Record SelectorRange : Type := {
  SelectorRange_Begin : KeySelector;
  SelectorRange_End : KeySelector
}.

Definition SelectorRange_LexRangeKeySelectors (sr : SelectorRange)
  : KeySelector * KeySelector :=
  (SelectorRange_Begin sr, SelectorRange_End sr).

End lex.

(** ** Package [tuple] *)

Module tuple.

(** The dynamic types an [Element] is switched on.  Two kinds of value
    have a [LexKey] method and so fall under the case
    [lex.KeyConvertible]: a key or a subspace, whose [LexKey] returns
    its bytes, given as [EKeyConvertible] by those bytes; and a nested
    tuple, [ETuple], whose [LexKey] is [Pack] and may panic.  [EOther] is
    a value of any other type, with its [%T] and [%v] renderings. *)
#[local] Set Warnings "-register-all".
Inductive Element : Type :=
| ENil
| EInt64 (i : Z)
| EUint32 (u : Z)
| EUint64 (u : Z)
| EInt (i : Z)
| EByte (c : byte)
| EBytes (b : list byte)
| EKeyConvertible (k : lex.Key)
| ETuple (t : list Element)
| EString (s : list byte)
| EOther (T : string) (v : string).

Definition Tuple : Type := list Element.

Definition sizeLimits : list Z :=
  [ 2 ^ (0 * 8) - 1;
    2 ^ (1 * 8) - 1;
    2 ^ (2 * 8) - 1;
    2 ^ (3 * 8) - 1;
    2 ^ (4 * 8) - 1;
    2 ^ (5 * 8) - 1;
    2 ^ (6 * 8) - 1;
    2 ^ (7 * 8) - 1;
    2 ^ (8 * 8) - 1 ].

Definition encodeBytes (buf : bytes.Buffer) (code : byte) (b : list byte) : bytes.Buffer :=
  let buf := bytes.WriteByte buf code in
  let buf := bytes.Write buf (bytes.Replace b [Byte.x00] [Byte.x00; Byte.xff]) in
  bytes.WriteByte buf Byte.x00.

(** The loop of [bisectLeft], from [n] on, over the limits from
    [sizeLimits[n]] on; past the last one the index is out of range. *)
Fixpoint bisectLeft_from (limits : list Z) (n : Z) (u : Z) : Result Z :=
  match limits with
  | [] => Panic IndexOutOfRange
  | l :: rest => if l <? u then bisectLeft_from rest (n + 1) u else Ok n
  end.

Definition bisectLeft (u : Z) : Result Z := bisectLeft_from sizeLimits 0 u.

Definition encodeInt (buf : bytes.Buffer) (i : Z) : Result bytes.Buffer :=
  if i =? 0 then Ok (bytes.WriteByte buf Byte.x14)
  else if 0 <? i then
    n <- bisectLeft (uint64 i) ;;
    let buf := bytes.WriteByte buf (mkbyte (20 + n)) in
    let ibuf := binary.Write [] i in
    tl <- sliceFrom (bytes.Bytes ibuf) (8 - n) ;;
    Ok (bytes.Write buf tl)
  else
    n <- bisectLeft (uint64 (int64 (- i))) ;;
    let buf := bytes.WriteByte buf (mkbyte (20 - n)) in
    l <- index sizeLimits n ;;
    let ibuf := binary.Write [] (int64 (int64 l + i)) in
    tl <- sliceFrom (bytes.Bytes ibuf) (8 - n) ;;
    Ok (bytes.Write buf tl).

(** One pass of the type switch of [Pack], for the element at index [i].
    In the case [lex.KeyConvertible] the call [e.LexKey()] is made first.
    For a nested tuple that call is [Pack] of the nested tuple ([LexKey]
    below), written here as the loop of [Pack] over its elements from
    index 0 and an empty buffer; when it panics, so does this pass, with
    the panic of the nested call. *)
Fixpoint encodeElement (buf : bytes.Buffer) (i : Z) (e : Element) {struct e}
  : Result bytes.Buffer :=
  match e with
  | ENil => Ok (bytes.WriteByte buf Byte.x00)
  | EInt64 v => encodeInt buf v
  | EUint32 v => encodeInt buf (int64 v)
  | EUint64 v => encodeInt buf (int64 v)
  | EInt v => encodeInt buf (int64 v)
  | EByte c => encodeInt buf (int64 (byteZ c))
  | EBytes b => Ok (encodeBytes buf Byte.x01 b)
  | EKeyConvertible k => Ok (encodeBytes buf Byte.x01 k)
  | ETuple t =>
      k <- (nested <-
              (fix Pack_range (t : list Element) (i : Z) (buf : bytes.Buffer) {struct t}
                 : Result bytes.Buffer :=
                 match t with
                 | [] => Ok buf
                 | e :: rest =>
                     buf' <- encodeElement buf i e ;;
                     Pack_range rest (i + 1) buf'
                 end) t 0 [] ;;
            Ok (bytes.Bytes nested)) ;;
      Ok (encodeBytes buf Byte.x01 k)
  | EString s => Ok (encodeBytes buf Byte.x02 s)
  | EOther T v => Panic (Unencodable i v T)
  end.

Fixpoint Pack_range (t : Tuple) (i : Z) (buf : bytes.Buffer) : Result bytes.Buffer :=
  match t with
  | [] => Ok buf
  | e :: rest =>
      buf' <- encodeElement buf i e ;;
      Pack_range rest (i + 1) buf'
  end.

Definition Pack (t : Tuple) : Result (list byte) :=
  buf <- Pack_range t 0 [] ;;
  Ok (bytes.Bytes buf).

(** The loop of [findTerminator], on a budget of iterations. *)
Fixpoint findTerminator_loop (fuel : nat) (bp : list byte) (length : Z) : Result Z :=
  match fuel with
  | O => Unfinished
  | S fuel' =>
      let idx := bytes.IndexByte bp Byte.x00 in
      let length := length + idx in
      if idx + 1 =? len bp then Ok length
      else
        c <- index bp (idx + 1) ;;
        if negb (Byte.eqb c Byte.xff) then Ok length
        else
          let length := length + 2 in
          bp' <- sliceFrom bp (idx + 2) ;;
          findTerminator_loop fuel' bp' length
  end.

Definition findTerminator (b : list byte) : Result Z :=
  findTerminator_loop (S (List.length b)) b 0.

Definition decodeBytes (b spare : list byte) : Result (list byte * Z) :=
  b1 <- sliceFrom b 1 ;;
  idx <- findTerminator b1 ;;
  payload <- slice b spare 1 (idx + 1) ;;
  Ok (bytes.Replace payload [Byte.x00; Byte.xff] [Byte.x00], idx + 2).

Definition decodeString (b spare : list byte) : Result (list byte * Z) :=
  '(bp, idx) <- decodeBytes b spare ;;
  Ok (bp, idx).

Definition decodeInt (b spare : list byte) : Result (Z * Z) :=
  b0 <- index b 0 ;;
  if byteZ b0 =? 20 then Ok (0, 1)
  else
    let n := byteZ b0 - 20 in
    let '(n, neg) := if n <? 0 then (- n, true) else (n, false) in
    let bp := make 8 in
    src <- slice b spare 1 (n + 1) ;;
    bp <- copyAt bp (8 - n) src ;;
    let ret := binary.Read bp in
    if neg then
      l <- index sizeLimits n ;;
      Ok (int64 (ret - int64 l), n + 1)
    else Ok (ret, n + 1).

(** The loop of [Unpack], on a budget of iterations: [b] is the input,
    [spare] what its backing array holds past its length, [t] the tuple
    so far and [i] the offset. *)
Fixpoint Unpack_loop (fuel : nat) (b spare : list byte) (t : Tuple) (i : Z)
  : Result (Tuple * option error) :=
  match fuel with
  | O => Unfinished
  | S fuel' =>
      if i <? len b then
        c <- index b i ;;
        if byteZ c =? 0 then
          Unpack_loop fuel' b spare (t ++ [ENil]) (i + 1)
        else if byteZ c =? 1 then
          bi <- sliceFrom b i ;;
          '(el, off) <- decodeBytes bi spare ;;
          Unpack_loop fuel' b spare (t ++ [EBytes el]) (i + off)
        else if byteZ c =? 2 then
          bi <- sliceFrom b i ;;
          '(el, off) <- decodeString bi spare ;;
          Unpack_loop fuel' b spare (t ++ [EString el]) (i + off)
        else if (12 <=? byteZ c) && (byteZ c <=? 28) then
          bi <- sliceFrom b i ;;
          '(el, off) <- decodeInt bi spare ;;
          Unpack_loop fuel' b spare (t ++ [EInt64 el]) (i + off)
        else Ok ([], Some (Errorf_unknown_typecode c))
      else Ok (t, None)
  end.

(** [Unpack(b)], for a slice [b] whose backing array holds [spare] past
    the length of [b]. *)
Definition Unpack_cap (b spare : list byte) : Result (Tuple * option error) :=
  Unpack_loop (S (List.length b)) b spare [] 0.

(** [Unpack(b)] for a slice of capacity [len(b)]. *)
Definition Unpack (b : list byte) : Result (Tuple * option error) :=
  Unpack_cap b [].

Definition concat (a b : list byte) : Result (list byte) :=
  let r := make (len a + len b) in
  let r := copy r a in
  copyAt r (len a) b.

Definition LexKey (t : Tuple) : Result lex.Key := Pack t.

(** What holds of an element that is encoded: the integer it carries is
    a value of its Go type, and the [LexKey] of a nested tuple returns. *)
Definition wfElement (e : Element) : bool :=
  match e with
  | EInt64 i => is_int64 i
  | EUint32 u => is_uint32 u
  | EUint64 u => is_uint64 u
  | EInt i => is_int64 i
  | ETuple t => match LexKey t with Ok _ => true | _ => false end
  | _ => true
  end.

Definition LexRangeKeys (t : Tuple) : Result (lex.Key * lex.Key) :=
  p <- Pack t ;;
  b <- concat p [Byte.x00] ;;
  e <- concat p [Byte.xff] ;;
  Ok (b, e).

Definition LexRangeKeySelectors (t : Tuple) : Result (lex.KeySelector * lex.KeySelector) :=
  '(b, e) <- LexRangeKeys t ;;
  Ok (lex.FirstGreaterOrEqual b, lex.FirstGreaterOrEqual e).

End tuple.

(** ** Package [subspace] *)

Module subspace.

Record subspace : Type := { b : list byte }.

Definition concat (a b : list byte) : Result (list byte) :=
  let r := make (len a + len b) in
  let r := copy r a in
  copyAt r (len a) b.

Definition AllKeys : subspace := {| b := [] |}.

Definition FromBytes (b : list byte) : subspace :=
  let s := make (len b) in
  let s := copy s b in
  {| b := s |}.

Definition Bytes (s : subspace) : list byte := b s.

(** The package function [Sub] and the method [Sub]. *)
Definition Sub (el : tuple.Tuple) : Result subspace :=
  p <- tuple.Pack el ;;
  Ok {| b := p |}.

Definition Sub_of (s : subspace) (el : tuple.Tuple) : Result subspace :=
  p <- tuple.Pack el ;;
  r <- concat (Bytes s) p ;;
  Ok {| b := r |}.

Definition Pack (s : subspace) (t : tuple.Tuple) : Result lex.Key :=
  p <- tuple.Pack t ;;
  concat (b s) p.

(** [k] is the key that [k.LexKey()] returns, [spare] what its backing
    array holds past its length. *)
Definition Unpack_cap (s : subspace) (k : lex.Key) (spare : list byte)
  : Result (tuple.Tuple * option error) :=
  let key := k in
  if negb (bytes.HasPrefix key (b s)) then
    Ok ([], Some (errors_New "key is not in subspace"))
  else
    rest <- sliceFrom key (len (b s)) ;;
    tuple.Unpack_cap rest spare.

Definition Unpack (s : subspace) (k : lex.Key) : Result (tuple.Tuple * option error) :=
  Unpack_cap s k [].

Definition Contains (s : subspace) (k : lex.Key) : bool :=
  bytes.HasPrefix k (b s).

Definition LexKey (s : subspace) : lex.Key := b s.

Definition LexRangeKeys (s : subspace) : Result (lex.Key * lex.Key) :=
  b0 <- concat (b s) [Byte.x00] ;;
  e0 <- concat (b s) [Byte.xff] ;;
  Ok (b0, e0).

Definition LexRangeKeySelectors (s : subspace) : Result (lex.KeySelector * lex.KeySelector) :=
  '(begin, e0) <- LexRangeKeys s ;;
  Ok (lex.FirstGreaterOrEqual begin, lex.FirstGreaterOrEqual e0).

End subspace.

(** ** The notions the properties are stated with *)

Import tuple.

(** The supported variants: every type the switch of [Pack] has a case
    for. *)
Definition supported (e : Element) : bool :=
  match e with
  | EOther _ _ => false
  | _ => true
  end.

(** The variants [Unpack] produces: nil, [[]byte], [string] and [int64]. *)
Definition canonical (e : Element) : bool :=
  match e with
  | ENil | EBytes _ | EString _ => true
  | EInt64 i => is_int64 i
  | _ => false
  end.

(** Type normalization: an integer-like element as the [int64] it is
    converted to, a byte-convertible element as [[]byte]. *)
Definition normalize (e : Element) : Element :=
  match e with
  | EUint32 v | EUint64 v | EInt v => EInt64 (int64 v)
  | EByte c => EInt64 (int64 (byteZ c))
  | EKeyConvertible k => EBytes k
  | ETuple t => match LexKey t with Ok k => EBytes k | _ => e end
  | _ => e
  end.

(** The order of tuples: by variant (null, byte string, unicode string,
    integer), then by bytes or by value; a strict prefix comes first. *)
Definition variantRank (e : Element) : Z :=
  match e with
  | ENil => 0
  | EBytes _ => 1
  | EString _ => 2
  | EInt64 _ => 3
  | _ => 4
  end.

Definition Element_compare (e f : Element) : comparison :=
  match e, f with
  | EBytes x, EBytes y => bytes.Compare x y
  | EString x, EString y => bytes.Compare x y
  | EInt64 i, EInt64 j => Z.compare i j
  | _, _ => Z.compare (variantRank e) (variantRank f)
  end.

Fixpoint Tuple_compare (a b : Tuple) : comparison :=
  match a, b with
  | [], [] => Eq
  | [], _ :: _ => Lt
  | _ :: _, [] => Gt
  | e :: a', f :: b' =>
      match Element_compare e f with
      | Eq => Tuple_compare a' b'
      | c => c
      end
  end.

(** [k] lies in the half-open range from [lo] to [hi]. *)
Definition inRange (lo hi k : list byte) : bool :=
  match bytes.Compare lo k, bytes.Compare k hi with
  | Gt, _ => false
  | _, Lt => true
  | _, _ => false
  end.

(** [q] has [p] as a strict prefix. *)
Definition strictlyExtends (q p : Tuple) : Prop :=
  exists r, r <> [] /\ q = p ++ r.

(** [n] is the least byte count in which the magnitude [m] fits. *)
Definition minimalByteCount (m : Z) (n : nat) : Prop :=
  m <= 2 ^ (8 * Z.of_nat n) - 1 /\
  forall k : nat, (k < n)%nat -> 2 ^ (8 * Z.of_nat k) - 1 < m.

(** The tag and the payload of an integer as the format describes them,
    for the byte count [n]. *)
Definition formatTag (i : Z) (n : nat) : byte :=
  if i =? 0 then Byte.x14
  else if 0 <? i then mkbyte (20 + Z.of_nat n)
  else mkbyte (20 - Z.of_nat n).

Definition formatPayload (i : Z) (n : nat) : list byte :=
  if 0 <=? i then binary.bigEndian n i
  else binary.bigEndian n (2 ^ (8 * Z.of_nat n) - 1 + i).

(** The integers at the boundaries of the widths. *)
Definition boundaryValues : list Z :=
  [0; 1; -1; 255; 256; -256; 2 ^ 63 - 1; - 2 ^ 63].

(** The bytes of the text [user]. *)
Definition user : list byte := [Byte.x75; Byte.x73; Byte.x65; Byte.x72].

(** The recognized leading bytes: 0x00, 0x01, 0x02 and 0x0C to 0x1C. *)
Definition isTypecode (c : byte) : bool :=
  (byteZ c =? 0) || (byteZ c =? 1) || (byteZ c =? 2)
  || ((12 <=? byteZ c) && (byteZ c <=? 28)).

(** The states the loop of [Unpack] passes through on the input [b]: the
    tuple decoded so far and the offset of the next element. *)
Inductive boundary (b spare : list byte) : Tuple -> Z -> Prop :=
| boundary_start : boundary b spare [] 0
| boundary_nil (t : Tuple) (i : Z) (c : byte) :
    boundary b spare t i -> i < len b ->
    index b i = Ok c -> byteZ c = 0 ->
    boundary b spare (t ++ [ENil]) (i + 1)
| boundary_bytes (t : Tuple) (i : Z) (c : byte) (bi el : list byte) (off : Z) :
    boundary b spare t i -> i < len b ->
    index b i = Ok c -> byteZ c = 1 ->
    sliceFrom b i = Ok bi -> decodeBytes bi spare = Ok (el, off) ->
    boundary b spare (t ++ [EBytes el]) (i + off)
| boundary_string (t : Tuple) (i : Z) (c : byte) (bi el : list byte) (off : Z) :
    boundary b spare t i -> i < len b ->
    index b i = Ok c -> byteZ c = 2 ->
    sliceFrom b i = Ok bi -> decodeString bi spare = Ok (el, off) ->
    boundary b spare (t ++ [EString el]) (i + off)
| boundary_int (t : Tuple) (i : Z) (c : byte) (bi : list byte) (el off : Z) :
    boundary b spare t i -> i < len b ->
    index b i = Ok c -> 12 <= byteZ c <= 28 ->
    sliceFrom b i = Ok bi -> decodeInt bi spare = Ok (el, off) ->
    boundary b spare (t ++ [EInt64 el]) (i + off).

(** Sample values, for the instances of the theorems. *)
Definition sampleTuple : Tuple :=
  [EString user; EInt 42; ENil; EBytes [Byte.x61; Byte.x00];
   EUint64 (2 ^ 64 - 1); EKeyConvertible [Byte.x00; Byte.xff]; EByte Byte.x07].

Definition sampleA : Tuple := [EString user; EBytes [Byte.x00]].
Definition sampleB : Tuple := [EInt64 (-256); ENil].

Definition sampleLow : Tuple :=
  [EString user; EBytes [Byte.x61]; EInt64 (-256)].
Definition sampleHigh : Tuple :=
  [EString user; EBytes [Byte.x61; Byte.x00]; EInt64 (-300)].

Definition samplePrefix : Tuple := [EString user; EInt 42].

Definition sampleInput : list byte :=
  [Byte.x00; Byte.x15; Byte.x2a; Byte.x01; Byte.x61; Byte.x00; Byte.x03; Byte.x00].

Definition sampleSubspace : subspace.subspace :=
  subspace.FromBytes [Byte.x15; Byte.x01].
Definition otherSubspace : subspace.subspace :=
  subspace.FromBytes [Byte.x15; Byte.x02].
Definition otherKey : lex.Key :=
  [Byte.x15; Byte.x02; Byte.x02; Byte.x75; Byte.x73; Byte.x65; Byte.x72; Byte.x00].

(** A byte string cut before its terminator: the tag 0x01 and the
    payload byte 0xFF, with no zero byte. *)
Definition truncatedBytes : list byte := [Byte.x01; Byte.xff].

(** ** Notions for the further properties *)

(** What [encodeBytes] writes for one byte of the value. *)
Definition escapeByte (c : byte) : list byte :=
  if byteZ c =? 0 then [Byte.x00; Byte.xff] else [c].

(** The number of zero bytes of a byte string. *)
Definition countZeros (s : list byte) : Z :=
  len (filter (fun c => byteZ c =? 0) s).

(** A payload in which [findTerminator] finds no end: it holds no zero
    byte and does not start with 0xFF. *)
Definition noTerminator (p : list byte) : Prop :=
  bytes.IndexByte p Byte.x00 = -1 /\ index p 0 <> Ok Byte.xff.


(** A tuple with a nested tuple that cannot be packed before the first
    element of an unsupported type: [("user", (1.5), true)]. *)
Definition nestedUnencodable : Tuple :=
  [EString user; ETuple [EOther "float64" "1.5"]; EOther "bool" "true"].

(** The byte [c] occurs in [b]. *)
Definition occursIn (c : byte) (b : list byte) : Prop := In c b.

(** ** Closed forms of the encoders, used in the proofs *)

Definition escape (s : list byte) : list byte :=
  bytes.Replace s [Byte.x00] [Byte.x00; Byte.xff].

(** The number of size limits below [u]: the value of [bisectLeft]. *)
Fixpoint countBelow (limits : list Z) (u : Z) : nat :=
  match limits with
  | [] => O
  | l :: rest => if l <? u then S (countBelow rest u) else O
  end.

Definition intWidth (i : Z) : nat := countBelow sizeLimits (Z.abs i).

Definition encodedInt (i : Z) : list byte :=
  let n := intWidth i in formatTag i n :: formatPayload i n.

Definition encoded (e : Element) : list byte :=
  match e with
  | ENil => [Byte.x00]
  | EInt64 v => encodedInt v
  | EUint32 v | EUint64 v | EInt v => encodedInt (int64 v)
  | EByte c => encodedInt (int64 (byteZ c))
  | EBytes s | EKeyConvertible s => Byte.x01 :: escape s ++ [Byte.x00]
  | ETuple t =>
      match LexKey t with
      | Ok k => Byte.x01 :: escape k ++ [Byte.x00]
      | _ => []
      end
  | EString s => Byte.x02 :: escape s ++ [Byte.x00]
  | EOther _ _ => []
  end.

Definition packed (t : Tuple) : list byte := flat_map encoded t.

(** A byte sequence that is empty or starts with a byte other than 0xFF. *)
Definition tagHeaded (r : list byte) : Prop :=
  match r with
  | [] => True
  | c :: _ => byteZ c < 255
  end.

(** What may follow an encoded element for the order to be decided
    within it: nothing, a type code, or the 0xFF that ends a range. *)
Definition belowEscape (X : list byte) : Prop :=
  forall w Y : list byte, w <> [] -> bytes.Compare X (Byte.xff :: w ++ Y) = Lt.

(** A byte sequence without a zero byte. *)
Definition zeroFree (u : list byte) : Prop := Forall (fun c => byteZ c <> 0) u.

(** [u] and [v] differ first at a byte that is smaller in [u]. *)
Definition diverges (u v : list byte) : Prop :=
  exists c x y u' v', u = c ++ x :: u' /\ v = c ++ y :: v' /\ byteZ x < byteZ y.

(** Evaluates the powers of 256 in the goal. *)
Ltac eval_pow256 :=
  repeat match goal with
         | |- context [2 ^ (8 * Z.of_nat ?k)] =>
             let v := eval vm_compute in (2 ^ (8 * Z.of_nat k)) in
             change (2 ^ (8 * Z.of_nat k)) with v
         end.

(** * Properties *)

(** ** Bytes and machine integers *)

Lemma byteZ_range (c : byte) : 0 <= byteZ c < 256.
Proof.
  unfold byteZ. pose proof (Byte.to_N_bounded c). lia.
Qed.

Lemma mkbyte_byteZ (c : byte) : mkbyte (byteZ c) = c.
Proof.
  unfold mkbyte. rewrite Z.mod_small by apply byteZ_range.
  unfold byteZ. rewrite N2Z.id, Byte.of_to_N. reflexivity.
Qed.

Lemma byteZ_mkbyte (z : Z) : byteZ (mkbyte z) = z mod 256.
Proof.
  unfold mkbyte, byteZ.
  assert (H : 0 <= z mod 256 < 256) by (apply Z.mod_pos_bound; lia).
  destruct (Byte.of_N (Z.to_N (z mod 256))) as [c|] eqn:E.
  - apply Byte.to_of_N in E. rewrite E. lia.
  - apply Byte.of_N_None_iff in E. lia.
Qed.

Lemma byteZ_mkbyte_small (z : Z) : 0 <= z < 256 -> byteZ (mkbyte z) = z.
Proof.
  intros H. rewrite byteZ_mkbyte. apply Z.mod_small, H.
Qed.

Lemma byteZ_inj (a b : byte) : byteZ a = byteZ b -> a = b.
Proof.
  intros H. rewrite <- (mkbyte_byteZ a), <- (mkbyte_byteZ b), H. reflexivity.
Qed.

Lemma eqb_byteZ (a b : byte) : Byte.eqb a b = (byteZ a =? byteZ b).
Proof.
  destruct (Byte.eqb a b) eqn:E.
  - apply Byte.byte_dec_bl in E. subst. symmetry. apply Z.eqb_refl.
  - apply Byte.eqb_false in E. symmetry. apply Z.eqb_neq.
    intros H. apply E, byteZ_inj, H.
Qed.

Lemma eqb_x00 (c : byte) : Byte.eqb c Byte.x00 = (byteZ c =? 0).
Proof. apply eqb_byteZ. Qed.

Lemma eqb_xff (c : byte) : Byte.eqb c Byte.xff = (byteZ c =? 255).
Proof. apply eqb_byteZ. Qed.

Lemma pow2_64 : 2 ^ 64 = 18446744073709551616.
Proof. reflexivity. Qed.

Lemma pow2_63 : 2 ^ 63 = 9223372036854775808.
Proof. reflexivity. Qed.

Lemma is_int64_spec (z : Z) : is_int64 z = true <-> - 2 ^ 63 <= z < 2 ^ 63.
Proof. unfold is_int64. rewrite pow2_63. lia. Qed.

Lemma is_uint64_spec (z : Z) : is_uint64 z = true <-> 0 <= z < 2 ^ 64.
Proof. unfold is_uint64. rewrite pow2_64. lia. Qed.

Lemma int64_range (z : Z) : - 2 ^ 63 <= int64 z < 2 ^ 63.
Proof.
  unfold int64. rewrite pow2_63, pow2_64.
  pose proof (Z.mod_pos_bound (z + 9223372036854775808) 18446744073709551616).
  lia.
Qed.

Lemma is_int64_int64 (z : Z) : is_int64 (int64 z) = true.
Proof. apply is_int64_spec, int64_range. Qed.

(** [int64] picks the representative of a class modulo [2^64]. *)
Lemma int64_unique (z i : Z) (k : Z) :
  - 2 ^ 63 <= i < 2 ^ 63 -> z = i + k * 2 ^ 64 -> int64 z = i.
Proof.
  intros Hi ->. unfold int64.
  replace (i + k * 2 ^ 64 + 2 ^ 63) with (i + 2 ^ 63 + k * 2 ^ 64) by ring.
  rewrite Z.mod_add by (rewrite pow2_64; lia).
  rewrite Z.mod_small; rewrite ?pow2_63, ?pow2_64 in *; lia.
Qed.

Lemma int64_small (i : Z) : - 2 ^ 63 <= i < 2 ^ 63 -> int64 i = i.
Proof.
  intros H. apply (int64_unique i i 0); [exact H | ring].
Qed.

Lemma int64_decompose (z : Z) : exists k, z = int64 z + k * 2 ^ 64.
Proof.
  exists ((z + 2 ^ 63) / 2 ^ 64). unfold int64.
  pose proof (Z.div_mod (z + 2 ^ 63) (2 ^ 64)) as H.
  rewrite pow2_64 in *. lia.
Qed.

Lemma uint64_decompose (z : Z) : exists k, z = uint64 z + k * 2 ^ 64.
Proof.
  exists (z / 2 ^ 64). unfold uint64.
  pose proof (Z.div_mod z (2 ^ 64)) as H.
  rewrite pow2_64 in *. lia.
Qed.


(** ** Outcomes and slices *)

Lemma len_nonneg {A : Type} (s : list A) : 0 <= len s.
Proof. unfold len. lia. Qed.

Lemma len_app {A : Type} (x y : list A) : len (x ++ y) = len x + len y.
Proof. unfold len. rewrite length_app. lia. Qed.

Lemma len_cons {A : Type} (x : A) (s : list A) : len (x :: s) = 1 + len s.
Proof. unfold len. simpl List.length. lia. Qed.

Lemma len_nil {A : Type} : len (@nil A) = 0.
Proof. reflexivity. Qed.

Lemma index_app_head {A : Type} (pre : list A) (x : A) (r : list A) :
  index (pre ++ x :: r) (len pre) = Ok x.
Proof.
  unfold index. rewrite len_app, len_cons.
  pose proof (len_nonneg pre). pose proof (len_nonneg r).
  replace ((0 <=? len pre) && (len pre <? len pre + (1 + len r))) with true
    by (symmetry; apply andb_true_iff; lia).
  unfold len. rewrite Nat2Z.id, nth_error_app2 by lia.
  rewrite Nat.sub_diag. reflexivity.
Qed.

Lemma index_head {A : Type} (x : A) (r : list A) : index (x :: r) 0 = Ok x.
Proof. apply (index_app_head [] x r). Qed.

Lemma sliceFrom_app {A : Type} (pre r : list A) :
  sliceFrom (pre ++ r) (len pre) = Ok r.
Proof.
  unfold sliceFrom. rewrite len_app.
  pose proof (len_nonneg pre). pose proof (len_nonneg r).
  replace ((0 <=? len pre) && (len pre <=? len pre + len r)) with true
    by (symmetry; apply andb_true_iff; lia).
  unfold len. rewrite Nat2Z.id, skipn_app, skipn_all, Nat.sub_diag.
  reflexivity.
Qed.

Lemma slice_middle {A : Type} (pre mid post spare : list A) (hi : Z) :
  hi = len pre + len mid ->
  slice (pre ++ mid ++ post) spare (len pre) hi = Ok mid.
Proof.
  intros ->. unfold slice. rewrite !len_app.
  pose proof (len_nonneg pre). pose proof (len_nonneg mid).
  pose proof (len_nonneg post). pose proof (len_nonneg spare).
  replace ((0 <=? len pre) && (len pre <=? len pre + len mid)
           && (len pre + len mid <=? len pre + (len mid + len post) + len spare))
    with true by (symmetry; rewrite !andb_true_iff; lia).
  replace (len pre + len mid - len pre) with (len mid) by lia.
  unfold len. rewrite !Nat2Z.id. rewrite <- !app_assoc.
  rewrite skipn_app, skipn_all, Nat.sub_diag. simpl.
  rewrite firstn_app, firstn_all, Nat.sub_diag. simpl.
  apply f_equal, app_nil_r.
Qed.

Lemma copy_fill {A : Type} (dst src : list A) :
  List.length dst = List.length src -> copy dst src = src.
Proof.
  intros H. unfold copy. rewrite H, firstn_all, <- H, skipn_all.
  apply app_nil_r.
Qed.

Lemma make_length (n : nat) : List.length (make (Z.of_nat n)) = n.
Proof. unfold make. rewrite Nat2Z.id. apply repeat_length. Qed.

(** [concat], in both packages, is the concatenation. *)
Lemma concat_app (a b : list byte) : tuple.concat a b = Ok (a ++ b).
Proof.
  unfold tuple.concat, copyAt.
  assert (Hr : copy (make (len a + len b)) a = a ++ repeat Byte.x00 (List.length b)).
  { unfold copy, make, len. rewrite <- Nat2Z.inj_add, Nat2Z.id, repeat_length.
    rewrite firstn_all2 by lia. f_equal.
    rewrite repeat_app, skipn_app, repeat_length, skipn_all2, Nat.sub_diag
      by (rewrite repeat_length; lia).
    reflexivity. }
  rewrite Hr, sliceFrom_app. simpl.
  unfold len at 1. rewrite Nat2Z.id, firstn_app, firstn_all, Nat.sub_diag. simpl.
  rewrite app_nil_r, copy_fill by apply repeat_length.
  reflexivity.
Qed.

Lemma subspace_concat_app (a b : list byte) : subspace.concat a b = Ok (a ++ b).
Proof. apply concat_app. Qed.

(** ** The byte-lexicographic order *)

Lemma Compare_refl (a : list byte) : bytes.Compare a a = Eq.
Proof.
  induction a as [|x a IH]; simpl; [reflexivity|].
  rewrite Z.compare_refl. exact IH.
Qed.

Lemma Compare_eq (a b : list byte) : bytes.Compare a b = Eq -> a = b.
Proof.
  revert b. induction a as [|x a IH]; intros [|y b]; simpl; try discriminate.
  - reflexivity.
  - destruct (Z.compare_spec (byteZ x) (byteZ y)) as [E| |]; try discriminate.
    intros H. apply byteZ_inj in E. apply IH in H. congruence.
Qed.

Lemma Compare_antisym (a b : list byte) :
  bytes.Compare b a = CompOpp (bytes.Compare a b).
Proof.
  revert b. induction a as [|x a IH]; intros [|y b]; simpl; try reflexivity.
  rewrite (Z.compare_antisym (byteZ x) (byteZ y)).
  destruct (byteZ x ?= byteZ y); simpl; auto.
Qed.

Lemma Compare_app_l (p a b : list byte) :
  bytes.Compare (p ++ a) (p ++ b) = bytes.Compare a b.
Proof.
  induction p as [|x p IH]; simpl; [reflexivity|].
  rewrite Z.compare_refl. exact IH.
Qed.

Lemma Compare_nil_l (a : list byte) : a <> [] -> bytes.Compare [] a = Lt.
Proof. destruct a; [congruence | reflexivity]. Qed.

Lemma diverges_Compare (u v x y : list byte) :
  diverges u v -> bytes.Compare (u ++ x) (v ++ y) = Lt.
Proof.
  intros (c & a & b & u' & v' & -> & -> & Hab).
  rewrite <- !app_assoc, Compare_app_l. simpl.
  apply Z.compare_lt_iff in Hab. rewrite Hab. reflexivity.
Qed.

Lemma diverges_head (x y : byte) (u v : list byte) :
  byteZ x < byteZ y -> diverges (x :: u) (y :: v).
Proof. intros H. exists [], x, y, u, v. auto. Qed.

Lemma diverges_app_l (p u v : list byte) :
  diverges u v -> diverges (p ++ u) (p ++ v).
Proof.
  intros (c & a & b & u' & v' & -> & -> & Hab).
  exists (p ++ c), a, b, u', v'. rewrite <- !app_assoc. auto.
Qed.

Lemma diverges_cons (c : byte) (u v : list byte) :
  diverges u v -> diverges (c :: u) (c :: v).
Proof. apply (diverges_app_l [c]). Qed.

Lemma diverges_app_r (u v x y : list byte) :
  diverges u v -> diverges (u ++ x) (v ++ y).
Proof.
  intros (c & a & b & u' & v' & -> & -> & Hab).
  exists c, a, b, (u' ++ x), (v' ++ y). rewrite <- !app_assoc. auto.
Qed.

(** ** Prefixes *)

Lemma HasPrefix_nil (s : list byte) : bytes.HasPrefix s [] = true.
Proof.
  unfold bytes.HasPrefix. simpl. pose proof (len_nonneg s).
  apply andb_true_iff. split; [rewrite len_nil; lia | reflexivity].
Qed.

Lemma HasPrefix_nil_cons (y : byte) (p : list byte) :
  bytes.HasPrefix [] (y :: p) = false.
Proof. reflexivity. Qed.

Lemma HasPrefix_cons (x y : byte) (s p : list byte) :
  bytes.HasPrefix (x :: s) (y :: p) = Byte.eqb x y && bytes.HasPrefix s p.
Proof.
  unfold bytes.HasPrefix. rewrite !len_cons.
  replace (1 + len p <=? 1 + len s) with (len p <=? len s)
    by (apply eq_true_iff_eq; rewrite !Z.leb_le; lia).
  cbn [List.length firstn bytes.Equal].
  destruct (len p <=? len s), (Byte.eqb x y); reflexivity.
Qed.

Lemma HasPrefix_spec (s p : list byte) :
  bytes.HasPrefix s p = true <-> exists r, s = p ++ r.
Proof.
  revert s. induction p as [|y p IH]; intros s.
  - rewrite HasPrefix_nil. split; [exists s; reflexivity | reflexivity].
  - destruct s as [|x s].
    + rewrite HasPrefix_nil_cons. split; [discriminate | intros [r H]; discriminate].
    + rewrite HasPrefix_cons, andb_true_iff, IH. split.
      * intros [E [r ->]]. apply Byte.byte_dec_bl in E. subst. exists r. reflexivity.
      * intros [r H]. injection H as -> ->. split; [apply Byte.byte_dec_lb; reflexivity | exists r; reflexivity].
Qed.

(** ** Escaping of zero bytes *)

Lemma escape_nil : escape [] = [].
Proof. reflexivity. Qed.

Lemma escape_cons (c : byte) (s : list byte) :
  escape (c :: s) =
  if byteZ c =? 0 then Byte.x00 :: Byte.xff :: escape s else c :: escape s.
Proof.
  unfold escape, bytes.Replace. simpl bytes.Replace_skip.
  rewrite HasPrefix_cons, HasPrefix_nil, andb_true_r, eqb_x00.
  destruct (byteZ c =? 0); reflexivity.
Qed.

Lemma escape_length (s : list byte) : (List.length s <= List.length (escape s))%nat.
Proof.
  induction s as [|c s IH]; [simpl; lia|].
  rewrite escape_cons. destruct (byteZ c =? 0); simpl; lia.
Qed.

(** Undoing the escape gives the bytes back. *)
Lemma unescape_escape (s : list byte) :
  bytes.Replace (escape s) [Byte.x00; Byte.xff] [Byte.x00] = s.
Proof.
  unfold bytes.Replace. induction s as [|c s IH]; [reflexivity|].
  rewrite escape_cons. destruct (byteZ c =? 0) eqn:E.
  - apply Z.eqb_eq in E. change 0 with (byteZ Byte.x00) in E.
    apply byteZ_inj in E. subst c.
    simpl bytes.Replace_skip.
    rewrite !HasPrefix_cons, HasPrefix_nil. simpl.
    rewrite IH. reflexivity.
  - simpl bytes.Replace_skip.
    rewrite (HasPrefix_cons c Byte.x00), eqb_x00, E. simpl andb. cbv iota.
    f_equal. exact IH.
Qed.


Lemma IndexByte_from_zero (u r : list byte) (i : Z) :
  zeroFree u -> bytes.IndexByte_from (u ++ Byte.x00 :: r) Byte.x00 i = i + len u.
Proof.
  intros Hu. revert i. induction Hu as [|c u Hc Hu IH]; intros i; simpl.
  - rewrite len_nil. lia.
  - rewrite eqb_x00. apply Z.eqb_neq in Hc. rewrite Hc, IH, len_cons. lia.
Qed.

Lemma tagHeaded_not_xff (c : byte) (r : list byte) :
  tagHeaded (c :: r) -> negb (Byte.eqb c Byte.xff) = true.
Proof.
  simpl. intros H. rewrite eqb_xff.
  apply negb_true_iff, Z.eqb_neq. change (byteZ Byte.xff) with 255. lia.
Qed.

Lemma findTerminator_loop_escape (s : list byte) :
  forall (u rest : list byte) (fuel : nat) (L : Z),
    zeroFree u -> tagHeaded rest -> (List.length s < fuel)%nat ->
    findTerminator_loop fuel (u ++ escape s ++ Byte.x00 :: rest) L
    = Ok (L + len u + len (escape s)).
Proof.
  induction s as [|c s IH]; intros u rest fuel L Hu Hrest Hfuel.
  - destruct fuel as [|fuel]; [simpl in Hfuel; lia|].
    rewrite escape_nil. simpl app. simpl findTerminator_loop.
    unfold bytes.IndexByte. rewrite IndexByte_from_zero by exact Hu.
    rewrite len_app, len_cons; change (@len byte []) with 0.
    destruct rest as [|d rest].
    + change (@len byte []) with 0. replace (0 + len u + 1 =? len u + (1 + 0)) with true
        by (symmetry; apply Z.eqb_eq; lia).
      f_equal. lia.
    + rewrite len_cons. pose proof (len_nonneg rest).
      replace (0 + len u + 1 =? len u + (1 + (1 + len rest))) with false
        by (symmetry; apply Z.eqb_neq; lia).
      replace (0 + len u + 1) with (len (u ++ [Byte.x00]))
        by (rewrite len_app, len_cons; change (@len byte []) with 0; lia).
      replace (u ++ Byte.x00 :: d :: rest) with ((u ++ [Byte.x00]) ++ d :: rest)
        by (rewrite <- app_assoc; reflexivity).
      rewrite index_app_head. simpl bind.
      rewrite (tagHeaded_not_xff d rest Hrest). f_equal. lia.
  - rewrite escape_cons. destruct (byteZ c =? 0) eqn:E.
    + destruct fuel as [|fuel]; [simpl in Hfuel; lia|].
      simpl in Hfuel. simpl app. simpl findTerminator_loop.
      unfold bytes.IndexByte. rewrite IndexByte_from_zero by exact Hu.
      rewrite len_app, !len_cons, len_app.
      pose proof (len_nonneg (escape s)).
      pose proof (len_nonneg (Byte.x00 :: rest)).
      replace (0 + len u + 1 =? _) with false
        by (symmetry; apply Z.eqb_neq; lia).
      replace (0 + len u + 1) with (len (u ++ [Byte.x00]))
        by (rewrite len_app, len_cons; change (@len byte []) with 0; lia).
      replace (u ++ Byte.x00 :: Byte.xff :: escape s ++ Byte.x00 :: rest)
        with ((u ++ [Byte.x00]) ++ Byte.xff :: escape s ++ Byte.x00 :: rest)
        by (rewrite <- app_assoc; reflexivity).
      rewrite index_app_head. simpl bind.
      replace ((u ++ [Byte.x00]) ++ Byte.xff :: escape s ++ Byte.x00 :: rest)
        with ((u ++ [Byte.x00; Byte.xff]) ++ escape s ++ Byte.x00 :: rest)
        by (rewrite <- !app_assoc; reflexivity).
      replace (len u + 2) with (len (u ++ [Byte.x00; Byte.xff]))
        by (rewrite len_app, !len_cons; change (@len byte []) with 0; lia).
      rewrite sliceFrom_app. simpl bind.
      rewrite (IH [] rest fuel _ (Forall_nil _) Hrest) by lia.
      change (@len byte []) with 0. f_equal. lia.
    + replace (u ++ (c :: escape s) ++ Byte.x00 :: rest)
        with ((u ++ [c]) ++ escape s ++ Byte.x00 :: rest)
        by (rewrite <- !app_assoc; reflexivity).
      rewrite IH; try assumption.
      * rewrite len_app, !len_cons; change (@len byte []) with 0. f_equal. lia.
      * apply Forall_app. split; [exact Hu|].
        constructor; [apply Z.eqb_neq, E | constructor].
      * simpl in Hfuel. lia.
Qed.

Lemma findTerminator_escape (s rest : list byte) :
  tagHeaded rest ->
  findTerminator (escape s ++ Byte.x00 :: rest) = Ok (len (escape s)).
Proof.
  intros Hrest. unfold findTerminator.
  rewrite (findTerminator_loop_escape s [] rest _ 0 (Forall_nil _) Hrest).
  - change (@len byte []) with 0. f_equal.
  - rewrite length_app. pose proof (escape_length s). simpl. lia.
Qed.

Lemma decodeBytes_escape (code : byte) (s rest spare : list byte) :
  tagHeaded rest ->
  decodeBytes (code :: escape s ++ Byte.x00 :: rest) spare
  = Ok (s, len (escape s) + 2).
Proof.
  intros Hrest. unfold decodeBytes.
  change (sliceFrom (code :: escape s ++ Byte.x00 :: rest) 1)
    with (sliceFrom ([code] ++ escape s ++ Byte.x00 :: rest) (len [code])).
  rewrite sliceFrom_app. simpl bind.
  rewrite findTerminator_escape by exact Hrest. simpl bind.
  change (slice (code :: escape s ++ Byte.x00 :: rest) spare 1 (len (escape s) + 1))
    with (slice ([code] ++ escape s ++ Byte.x00 :: rest) spare (len [code]) (len (escape s) + 1)).
  rewrite slice_middle by (rewrite len_cons; change (@len byte []) with 0; lia).
  simpl bind. fold (escape s). rewrite unescape_escape. reflexivity.
Qed.

(** ** Big-endian bytes *)

Lemma pow256_pos (n : nat) : 0 < 2 ^ (8 * Z.of_nat n).
Proof. apply Z.pow_pos_nonneg; lia. Qed.

Lemma pow256_S (n : nat) : 2 ^ (8 * Z.of_nat (S n)) = 256 * 2 ^ (8 * Z.of_nat n).
Proof.
  replace (8 * Z.of_nat (S n)) with (8 + 8 * Z.of_nat n) by lia.
  rewrite Z.pow_add_r by lia. reflexivity.
Qed.

Lemma pow256_mono (k n : nat) :
  (k <= n)%nat -> 2 ^ (8 * Z.of_nat k) <= 2 ^ (8 * Z.of_nat n).
Proof. intros H. apply Z.pow_le_mono_r; lia. Qed.

Lemma bigEndian_length (n : nat) (v : Z) : List.length (binary.bigEndian n v) = n.
Proof. induction n as [|n IH]; simpl; [reflexivity | now rewrite IH]. Qed.

Lemma bigEndian_skipn (j n : nat) (v : Z) :
  skipn j (binary.bigEndian (j + n) v) = binary.bigEndian n v.
Proof. induction j as [|j IH]; [reflexivity | exact IH]. Qed.

Lemma fromBigEndian_fold (bs : list byte) (acc : Z) :
  fold_left (fun a c => a * 256 + byteZ c) bs acc
  = acc * 2 ^ (8 * len bs) + binary.fromBigEndian bs.
Proof.
  unfold binary.fromBigEndian. revert acc.
  induction bs as [|c bs IH]; intros acc.
  - simpl. change (@len byte []) with 0. simpl. lia.
  - cbn [fold_left]. rewrite (IH (acc * 256 + byteZ c)), (IH (0 * 256 + byteZ c)).
    unfold len. cbn [List.length]. rewrite pow256_S. ring.
Qed.

Lemma fromBigEndian_cons (c : byte) (bs : list byte) :
  binary.fromBigEndian (c :: bs)
  = byteZ c * 2 ^ (8 * len bs) + binary.fromBigEndian bs.
Proof.
  unfold binary.fromBigEndian at 1. cbn [fold_left].
  rewrite fromBigEndian_fold. reflexivity.
Qed.

Lemma fromBigEndian_zeros (k : nat) (bs : list byte) :
  binary.fromBigEndian (repeat Byte.x00 k ++ bs) = binary.fromBigEndian bs.
Proof.
  induction k as [|k IH]; [reflexivity|].
  simpl. rewrite fromBigEndian_cons, IH. change (byteZ Byte.x00) with 0. lia.
Qed.

(** Decoding the [n] low-order bytes gives the number modulo [2^(8n)]. *)
Lemma fromBigEndian_bigEndian (n : nat) (v : Z) :
  binary.fromBigEndian (binary.bigEndian n v) = v mod 2 ^ (8 * Z.of_nat n).
Proof.
  induction n as [|n IH].
  - simpl. rewrite Z.mod_1_r. reflexivity.
  - cbn [binary.bigEndian]. rewrite fromBigEndian_cons, IH, byteZ_mkbyte.
    unfold len. rewrite bigEndian_length, pow256_S.
    pose proof (pow256_pos n) as Hp.
    rewrite (Z.mul_comm 256), Z.rem_mul_r by lia. ring.
Qed.

(** The big-endian bytes of two numbers of one width compare as the
    numbers do. *)
Lemma bigEndian_diverges (n : nat) :
  forall u v : Z,
    u / 2 ^ (8 * Z.of_nat n) = v / 2 ^ (8 * Z.of_nat n) -> u < v ->
    diverges (binary.bigEndian n u) (binary.bigEndian n v).
Proof.
  induction n as [|n IH]; intros u v Hq Hlt.
  - simpl in Hq. rewrite !Z.div_1_r in Hq. lia.
  - cbn [binary.bigEndian]. pose proof (pow256_pos n) as Hp.
    set (P := 2 ^ (8 * Z.of_nat n)) in *.
    rewrite pow256_S in Hq. fold P in Hq.
    rewrite (Z.mul_comm 256), <- !Z.div_div in Hq by lia.
    assert (Hle : u / P <= v / P) by (apply Z.div_le_mono; lia).
    destruct (Z.eq_dec (u / P) (v / P)) as [E|NE].
    + rewrite E. apply diverges_cons, IH; assumption.
    + apply diverges_head. rewrite !byteZ_mkbyte.
      pose proof (Z.div_mod (u / P) 256). pose proof (Z.div_mod (v / P) 256).
      pose proof (Z.mod_pos_bound (u / P) 256).
      pose proof (Z.mod_pos_bound (v / P) 256). lia.
Qed.

Lemma bigEndian_lt (n : nat) (u v : Z) :
  0 <= u -> u < v -> v < 2 ^ (8 * Z.of_nat n) ->
  diverges (binary.bigEndian n u) (binary.bigEndian n v).
Proof.
  intros H0 Hlt Hv. apply bigEndian_diverges; [|exact Hlt].
  rewrite !Z.div_small by lia. reflexivity.
Qed.

(** ** The width of an integer *)

Lemma sizeLimits_values :
  sizeLimits = [0; 255; 65535; 16777215; 4294967295; 1099511627775;
                281474976710655; 72057594037927935; 18446744073709551615].
Proof. reflexivity. Qed.

Lemma index_sizeLimits (n : nat) :
  (n <= 8)%nat -> index sizeLimits (Z.of_nat n) = Ok (2 ^ (8 * Z.of_nat n) - 1).
Proof.
  intros H.
  do 9 (destruct n as [|n]; [reflexivity|]). lia.
Qed.

Lemma bisectLeft_from_count (limits : list Z) (n u : Z) :
  (countBelow limits u < List.length limits)%nat ->
  bisectLeft_from limits n u = Ok (n + Z.of_nat (countBelow limits u)).
Proof.
  revert n. induction limits as [|l limits IH]; intros n H; simpl in *; [lia|].
  destruct (l <? u).
  - rewrite IH by lia. f_equal. lia.
  - f_equal. lia.
Qed.

(** The count is the least number of bytes the magnitude fits in. *)
Lemma countBelow_sizeLimits (u : Z) :
  0 <= u < 2 ^ 64 ->
  (countBelow sizeLimits u <= 8)%nat /\
  u <= 2 ^ (8 * Z.of_nat (countBelow sizeLimits u)) - 1 /\
  (forall k : nat, (k < countBelow sizeLimits u)%nat -> 2 ^ (8 * Z.of_nat k) - 1 < u).
Proof.
  rewrite pow2_64, sizeLimits_values. intros Hu.
  assert (Hmin : forall n : nat, 2 ^ (8 * Z.of_nat n) - 1 < u ->
                 forall k : nat, (k <= n)%nat -> 2 ^ (8 * Z.of_nat k) - 1 < u).
  { intros n Hn k Hk. pose proof (pow256_mono k n Hk). lia. }
  cbn [countBelow].
  repeat match goal with
         | |- context [?l <? u] => destruct (Z.ltb_spec l u)
         end;
    (split; [lia|]); (split; [eval_pow256; lia|]); intros k Hk.
  all: try lia.
  all: match goal with
       | Hk : (_ < S ?n)%nat |- _ => apply (Hmin n); [eval_pow256; lia | lia]
       end.
Qed.

Lemma bisectLeft_count (u : Z) :
  0 <= u < 2 ^ 64 -> bisectLeft u = Ok (Z.of_nat (countBelow sizeLimits u)).
Proof.
  intros Hu. unfold bisectLeft. rewrite bisectLeft_from_count.
  - reflexivity.
  - destruct (countBelow_sizeLimits u Hu) as [H _]. simpl List.length. lia.
Qed.

Lemma countBelow_pos (u : Z) : 0 < u -> (1 <= countBelow sizeLimits u)%nat.
Proof.
  intros H. rewrite sizeLimits_values. cbn [countBelow].
  destruct (Z.ltb_spec 0 u); lia.
Qed.

Lemma countBelow_mono (u v : Z) :
  u <= v -> (countBelow sizeLimits u <= countBelow sizeLimits v)%nat.
Proof.
  intros H. generalize sizeLimits as limits.
  induction limits as [|l limits IH]; simpl; [lia|].
  destruct (Z.ltb_spec l u), (Z.ltb_spec l v); lia.
Qed.

Lemma intWidth_abs (i : Z) :
  - 2 ^ 63 <= i < 2 ^ 63 ->
  (intWidth i <= 8)%nat /\ Z.abs i <= 2 ^ (8 * Z.of_nat (intWidth i)) - 1.
Proof.
  intros Hi. unfold intWidth.
  destruct (countBelow_sizeLimits (Z.abs i)) as (H1 & H2 & _).
  - rewrite pow2_63, pow2_64 in *. lia.
  - auto.
Qed.

(** ** The encoders in closed form *)

Lemma uint64_small (z : Z) : 0 <= z < 2 ^ 64 -> uint64 z = z.
Proof. intros H. apply Z.mod_small, H. Qed.

Lemma uint64_shift (z k : Z) : uint64 (z + k * 2 ^ 64) = uint64 z.
Proof. unfold uint64. apply Z.mod_add. rewrite pow2_64. lia. Qed.

Lemma uint64_int64 (z : Z) : uint64 (int64 z) = uint64 z.
Proof.
  destruct (int64_decompose z) as [k Hk].
  rewrite Hk at 2. symmetry. apply uint64_shift.
Qed.

Lemma bigEndian_low (n : nat) (v : Z) :
  (n <= 8)%nat ->
  sliceFrom (binary.bigEndian 8 v) (8 - Z.of_nat n) = Ok (binary.bigEndian n v).
Proof.
  intros H. unfold sliceFrom, len. rewrite bigEndian_length.
  change (Z.of_nat 8) with 8.
  replace ((0 <=? 8 - Z.of_nat n) && (8 - Z.of_nat n <=? 8)) with true
    by (symmetry; apply andb_true_iff; lia).
  replace (Z.to_nat (8 - Z.of_nat n)) with (8 - n)%nat by lia.
  replace 8%nat with ((8 - n) + n)%nat at 2 by lia.
  rewrite bigEndian_skipn. reflexivity.
Qed.

Lemma encodeInt_encodedInt (buf : bytes.Buffer) (i : Z) :
  - 2 ^ 63 <= i < 2 ^ 63 -> encodeInt buf i = Ok (buf ++ encodedInt i).
Proof.
  intros Hi. destruct (intWidth_abs i Hi) as [Hn Hfit].
  unfold encodeInt, encodedInt, formatTag, formatPayload.
  assert (H64 : 2 ^ 63 < 2 ^ 64) by (rewrite pow2_63, pow2_64; lia).
  destruct (Z.eqb_spec i 0) as [->|Hnz].
  - reflexivity.
  - destruct (Z.ltb_spec 0 i) as [Hpos|Hneg].
    + rewrite (uint64_small i) by lia.
      rewrite bisectLeft_count by lia.
      unfold intWidth in *. rewrite (Z.abs_eq i) in * by lia.
      cbn [bind]. unfold binary.Write, bytes.Write, bytes.Bytes, bytes.WriteByte.
      cbn [app]. rewrite (uint64_small i) by lia.
      rewrite bigEndian_low by exact Hn. cbn [bind].
      replace (0 <=? i) with true by (symmetry; apply Z.leb_le; lia).
      rewrite <- app_assoc. reflexivity.
    + assert (Hu : uint64 (int64 (- i)) = - i)
        by (rewrite uint64_int64; apply uint64_small; lia).
      rewrite Hu, bisectLeft_count by lia.
      unfold intWidth in *. rewrite (Z.abs_neq i) in * by lia.
      cbn [bind]. rewrite index_sizeLimits by exact Hn. cbn [bind].
      unfold binary.Write, bytes.Write, bytes.Bytes, bytes.WriteByte.
      cbn [app]. rewrite bigEndian_low by exact Hn. cbn [bind].
      replace (0 <=? i) with false by (symmetry; apply Z.leb_gt; lia).
      rewrite <- app_assoc. cbn [app]. do 3 f_equal.
      set (l := 2 ^ (8 * Z.of_nat (countBelow sizeLimits (- i))) - 1) in *.
      rewrite uint64_int64.
      destruct (int64_decompose l) as [k Hk].
      replace (int64 l + i) with (l + i + (- k) * 2 ^ 64) by lia.
      rewrite uint64_shift, uint64_small; [reflexivity|].
      pose proof (pow256_mono _ 8 Hn) as Hm. change (2 ^ (8 * Z.of_nat 8)) with (2 ^ 64) in Hm.
      lia.
Qed.

(** On a nested tuple the pass calls [LexKey], that is [Pack], and
    encodes the key returned as a byte string. *)
Lemma encodeElement_ETuple (buf : bytes.Buffer) (i : Z) (t : Tuple) :
  encodeElement buf i (ETuple t)
  = (k <- LexKey t ;; Ok (encodeBytes buf Byte.x01 k)).
Proof. reflexivity. Qed.

Lemma encodeBytes_app (buf : bytes.Buffer) (code : byte) (b : list byte) :
  encodeBytes buf code b = buf ++ code :: escape b ++ [Byte.x00].
Proof.
  unfold encodeBytes, bytes.WriteByte, bytes.Write.
  rewrite <- !app_assoc. reflexivity.
Qed.

Lemma encodeElement_encoded (buf : bytes.Buffer) (i : Z) (e : Element) :
  supported e = true -> wfElement e = true ->
  encodeElement buf i e = Ok (buf ++ encoded e).
Proof.
  intros Hs Hw.
  destruct e as [ | | | | | | | |t| | ];
    try (rewrite encodeElement_ETuple; cbn [encoded wfElement] in *;
         destruct (LexKey t); try discriminate; cbn [bind];
         rewrite encodeBytes_app; reflexivity);
    cbn [encodeElement encoded]; try discriminate;
    try (apply encodeInt_encodedInt, int64_range);
    try (rewrite encodeBytes_app; reflexivity);
    try reflexivity.
  apply encodeInt_encodedInt, is_int64_spec, Hw.
Qed.

Lemma Pack_range_packed (t : Tuple) :
  forall (i : Z) (buf : bytes.Buffer),
    forallb supported t = true -> forallb wfElement t = true ->
    Pack_range t i buf = Ok (buf ++ packed t).
Proof.
  induction t as [|e t IH]; intros i buf Hs Hw.
  - simpl. rewrite app_nil_r. reflexivity.
  - simpl in Hs, Hw. apply andb_true_iff in Hs, Hw.
    destruct Hs as [Hs Hst], Hw as [Hw Hwt].
    cbn [Pack_range]. rewrite encodeElement_encoded by assumption.
    cbn [bind]. rewrite IH by assumption.
    unfold packed. cbn [flat_map]. rewrite app_assoc. reflexivity.
Qed.

(** Packing a tuple of supported elements returns the concatenation of
    the encodings of the elements. *)
Lemma Pack_packed (t : Tuple) :
  forallb supported t = true -> forallb wfElement t = true ->
  Pack t = Ok (packed t).
Proof.
  intros Hs Hw. unfold Pack. rewrite Pack_range_packed by assumption.
  reflexivity.
Qed.

Lemma packed_app (a b : Tuple) : packed (a ++ b) = packed a ++ packed b.
Proof. apply flat_map_app. Qed.

(** ** Decoding what was encoded *)

Lemma copyAt_tail (a b src : list byte) :
  List.length b = List.length src -> copyAt (a ++ b) (len a) src = Ok (a ++ src).
Proof.
  intros H. unfold copyAt. rewrite sliceFrom_app. cbn [bind].
  unfold len. rewrite Nat2Z.id, firstn_app, firstn_all, Nat.sub_diag.
  cbn [firstn]. rewrite app_nil_r, copy_fill by exact H. reflexivity.
Qed.

Lemma copyAt_make8 (n : nat) (src : list byte) :
  (n <= 8)%nat -> List.length src = n ->
  copyAt (make 8) (8 - Z.of_nat n) src = Ok (repeat Byte.x00 (8 - n) ++ src).
Proof.
  intros Hn Hsrc. unfold make.
  replace (Z.to_nat 8) with ((8 - n) + n)%nat by lia.
  rewrite repeat_app.
  replace (8 - Z.of_nat n) with (len (repeat Byte.x00 (8 - n)))
    by (unfold len; rewrite repeat_length; lia).
  apply copyAt_tail. rewrite repeat_length. lia.
Qed.

Lemma Read_padded (n : nat) (v : Z) :
  (n <= 8)%nat -> 0 <= v < 2 ^ (8 * Z.of_nat n) ->
  binary.Read (repeat Byte.x00 (8 - n) ++ binary.bigEndian n v) = int64 v.
Proof.
  intros Hn Hv. unfold binary.Read.
  rewrite firstn_all2
    by (rewrite length_app, repeat_length, bigEndian_length; lia).
  rewrite fromBigEndian_zeros, fromBigEndian_bigEndian, Z.mod_small by exact Hv.
  reflexivity.
Qed.

Lemma encodedInt_length (i : Z) : len (encodedInt i) = Z.of_nat (intWidth i) + 1.
Proof.
  unfold encodedInt, formatPayload. rewrite len_cons.
  unfold len. destruct (0 <=? i); rewrite bigEndian_length; lia.
Qed.

Lemma decodeInt_encodedInt (i : Z) (rest spare : list byte) :
  - 2 ^ 63 <= i < 2 ^ 63 ->
  decodeInt (encodedInt i ++ rest) spare = Ok (i, len (encodedInt i)).
Proof.
  intros Hi. destruct (intWidth_abs i Hi) as [Hn Hfit].
  rewrite encodedInt_length.
  unfold decodeInt, encodedInt, formatTag, formatPayload.
  cbn [app]. rewrite index_head. cbn [bind].
  set (n := intWidth i) in *.
  destruct (Z.eqb_spec i 0) as [->|Hnz].
  - reflexivity.
  - assert (Hn1 : (1 <= n)%nat) by (apply countBelow_pos; lia).
    destruct (Z.ltb_spec 0 i) as [Hpos|Hneg].
    + rewrite byteZ_mkbyte_small by lia.
      replace (20 + Z.of_nat n =? 20) with false by (symmetry; apply Z.eqb_neq; lia).
      replace (20 + Z.of_nat n - 20 <? 0) with false by (symmetry; apply Z.ltb_ge; lia).
      replace (20 + Z.of_nat n - 20) with (Z.of_nat n) by lia.
      replace (0 <=? i) with true by (symmetry; apply Z.leb_le; lia).
      change (mkbyte (20 + Z.of_nat n) :: binary.bigEndian n i ++ rest)
        with ([mkbyte (20 + Z.of_nat n)] ++ binary.bigEndian n i ++ rest).
      change 1 with (len [mkbyte (20 + Z.of_nat n)]) at 1.
      rewrite slice_middle
        by (unfold len; rewrite bigEndian_length; cbn [List.length]; lia).
      cbn [bind]. rewrite copyAt_make8 by (auto using bigEndian_length).
      cbn [bind]. rewrite Z.abs_eq in Hfit by lia.
      rewrite Read_padded, int64_small by lia. reflexivity.
    + rewrite byteZ_mkbyte_small by lia.
      replace (20 - Z.of_nat n =? 20) with false by (symmetry; apply Z.eqb_neq; lia).
      replace (20 - Z.of_nat n - 20 <? 0) with true by (symmetry; apply Z.ltb_lt; lia).
      replace (- (20 - Z.of_nat n - 20)) with (Z.of_nat n) by lia.
      replace (0 <=? i) with false by (symmetry; apply Z.leb_gt; lia).
      set (l := 2 ^ (8 * Z.of_nat n) - 1) in *.
      change (mkbyte (20 - Z.of_nat n) :: binary.bigEndian n (l + i) ++ rest)
        with ([mkbyte (20 - Z.of_nat n)] ++ binary.bigEndian n (l + i) ++ rest).
      change 1 with (len [mkbyte (20 - Z.of_nat n)]) at 1.
      rewrite slice_middle
        by (unfold len; rewrite bigEndian_length; cbn [List.length]; lia).
      cbn [bind]. rewrite copyAt_make8 by (auto using bigEndian_length).
      cbn [bind]. rewrite Read_padded by (unfold l; lia).
      rewrite index_sizeLimits by exact Hn. cbn [bind]. fold l.
      do 2 f_equal.
      destruct (int64_decompose (l + i)) as [k1 Hk1].
      destruct (int64_decompose l) as [k2 Hk2].
      apply (int64_unique _ i (k2 - k1)); [exact Hi | lia].
Qed.

Lemma encodedInt_head (i : Z) :
  - 2 ^ 63 <= i < 2 ^ 63 ->
  exists c r, encodedInt i = c :: r /\ 12 <= byteZ c <= 28.
Proof.
  intros Hi. destruct (intWidth_abs i Hi) as [Hn _].
  unfold encodedInt, formatTag. eexists _, _. split; [reflexivity|].
  destruct (i =? 0); [change (byteZ Byte.x14) with 20; lia|].
  destruct (0 <? i); rewrite byteZ_mkbyte_small; lia.
Qed.

Lemma encoded_head (e : Element) :
  supported e = true -> wfElement e = true ->
  exists c r, encoded e = c :: r /\ 0 <= byteZ c <= 28.
Proof.
  intros Hs Hw.
  assert (Hint : forall i, - 2 ^ 63 <= i < 2 ^ 63 ->
                 exists c r, encodedInt i = c :: r /\ 0 <= byteZ c <= 28).
  { intros i Hi. destruct (encodedInt_head i Hi) as (c & r & -> & H).
    exists c, r. split; [reflexivity | lia]. }
  destruct e as [ | | | | | | | |t| | ]; cbn [encoded wfElement] in *;
    try discriminate;
    try (destruct (LexKey t); try discriminate);
    try (apply Hint, int64_range);
    try (eexists _, _; split; [reflexivity | cbv; split; discriminate]).
  apply Hint, is_int64_spec, Hw.
Qed.

Lemma packed_tagHeaded (t : Tuple) :
  forallb supported t = true -> forallb wfElement t = true ->
  tagHeaded (packed t).
Proof.
  destruct t as [|e t]; [exact (fun _ _ => I)|].
  cbn [forallb]. intros Hs Hw. apply andb_true_iff in Hs, Hw.
  destruct (encoded_head e) as (c & r & E & Hc); try tauto.
  unfold packed. cbn [flat_map]. rewrite E. simpl. lia.
Qed.

Lemma packed_length (t : Tuple) :
  forallb supported t = true -> forallb wfElement t = true ->
  (List.length t <= List.length (packed t))%nat.
Proof.
  induction t as [|e t IH]; [simpl; lia|].
  cbn [forallb]. intros Hs Hw. apply andb_true_iff in Hs, Hw.
  destruct (encoded_head e) as (c & r & E & Hc); try tauto.
  unfold packed in *. cbn [flat_map]. rewrite E, length_app.
  cbn [List.length]. specialize (IH (proj2 Hs) (proj2 Hw)). lia.
Qed.

(** One turn of the loop of [Unpack], at an offset where the byte [c]
    stands. *)
Lemma Unpack_loop_at (fuel : nat) (pre body spare : list byte) (c : byte) (t : Tuple) :
  Unpack_loop (S fuel) (pre ++ c :: body) spare t (len pre) =
  let b := pre ++ c :: body in
  if byteZ c =? 0 then Unpack_loop fuel b spare (t ++ [ENil]) (len pre + 1)
  else if byteZ c =? 1 then
    '(el, off) <- decodeBytes (c :: body) spare ;;
    Unpack_loop fuel b spare (t ++ [EBytes el]) (len pre + off)
  else if byteZ c =? 2 then
    '(el, off) <- decodeString (c :: body) spare ;;
    Unpack_loop fuel b spare (t ++ [EString el]) (len pre + off)
  else if (12 <=? byteZ c) && (byteZ c <=? 28) then
    '(el, off) <- decodeInt (c :: body) spare ;;
    Unpack_loop fuel b spare (t ++ [EInt64 el]) (len pre + off)
  else Ok ([], Some (Errorf_unknown_typecode c)).
Proof.
  cbn [Unpack_loop]. rewrite len_app, len_cons.
  pose proof (len_nonneg body).
  replace (len pre <? len pre + (1 + len body)) with true
    by (symmetry; apply Z.ltb_lt; lia).
  rewrite index_app_head, sliceFrom_app. reflexivity.
Qed.

Lemma Unpack_loop_encoded (fuel : nat) (pre rest spare : list byte) (e : Element) (t : Tuple) :
  supported e = true -> wfElement e = true -> tagHeaded rest ->
  Unpack_loop (S fuel) (pre ++ encoded e ++ rest) spare t (len pre)
  = Unpack_loop fuel (pre ++ encoded e ++ rest) spare (t ++ [normalize e])
      (len pre + len (encoded e)).
Proof.
  intros Hs Hw Hrest.
  assert (Hint : forall i, - 2 ^ 63 <= i < 2 ^ 63 ->
    Unpack_loop (S fuel) (pre ++ encodedInt i ++ rest) spare t (len pre)
    = Unpack_loop fuel (pre ++ encodedInt i ++ rest) spare (t ++ [EInt64 i])
        (len pre + len (encodedInt i))).
  { intros i Hi. pose proof (decodeInt_encodedInt i rest spare Hi) as Hd.
    destruct (encodedInt_head i Hi) as (c & r & E & Hc).
    rewrite E in *. cbn [app] in *. rewrite Unpack_loop_at. cbv zeta.
    replace (byteZ c =? 0) with false by (symmetry; apply Z.eqb_neq; lia).
    replace (byteZ c =? 1) with false by (symmetry; apply Z.eqb_neq; lia).
    replace (byteZ c =? 2) with false by (symmetry; apply Z.eqb_neq; lia).
    replace ((12 <=? byteZ c) && (byteZ c <=? 28)) with true
      by (symmetry; apply andb_true_iff; lia).
    rewrite Hd. reflexivity. }
  assert (Hbytes : forall s,
    Unpack_loop (S fuel) (pre ++ (Byte.x01 :: escape s ++ [Byte.x00]) ++ rest) spare t (len pre)
    = Unpack_loop fuel (pre ++ (Byte.x01 :: escape s ++ [Byte.x00]) ++ rest) spare
        (t ++ [EBytes s]) (len pre + len (Byte.x01 :: escape s ++ [Byte.x00]))).
  { intros s. cbn [app]. rewrite <- app_assoc. cbn [app].
    rewrite Unpack_loop_at. cbv zeta. change (byteZ Byte.x01) with 1.
    cbn [Z.eqb Pos.eqb]. rewrite decodeBytes_escape by exact Hrest.
    cbn [bind]. rewrite len_cons, len_app, len_cons.
    change (@len byte []) with 0. do 2 f_equal. lia. }
  destruct e as [ | | | | | | | |nested| | ];
    cbn [encoded normalize wfElement] in Hw |- *; try discriminate;
    try (destruct (LexKey nested); try discriminate);
    try (apply Hint, int64_range); try apply Hbytes.
  - cbn [app]. rewrite Unpack_loop_at. reflexivity.
  - apply Hint, is_int64_spec, Hw.
  - cbn [app]. rewrite <- app_assoc. cbn [app].
    rewrite Unpack_loop_at. cbv zeta. change (byteZ Byte.x02) with 2.
    cbn [Z.eqb Pos.eqb]. unfold decodeString.
    rewrite decodeBytes_escape by exact Hrest.
    cbn [bind]. rewrite len_cons, len_app, len_cons.
    change (@len byte []) with 0. do 2 f_equal. lia.
Qed.

Lemma Unpack_loop_packed (spare : list byte) (t : Tuple) :
  forall (pre : list byte) (acc : Tuple) (fuel : nat),
    forallb supported t = true -> forallb wfElement t = true ->
    (List.length t < fuel)%nat ->
    Unpack_loop fuel (pre ++ packed t) spare acc (len pre)
    = Ok (acc ++ map normalize t, None).
Proof.
  induction t as [|e t IH]; intros pre acc fuel Hs Hw Hfuel.
  - destruct fuel as [|fuel]; [simpl in Hfuel; lia|].
    cbn [packed flat_map map Unpack_loop]. rewrite !app_nil_r, Z.ltb_irrefl.
    reflexivity.
  - destruct fuel as [|fuel]; [simpl in Hfuel; lia|].
    cbn [forallb] in Hs, Hw. apply andb_true_iff in Hs, Hw.
    destruct Hs as [Hs Hst], Hw as [Hw Hwt].
    change (packed (e :: t)) with (encoded e ++ packed t).
    rewrite Unpack_loop_encoded; auto using packed_tagHeaded.
    rewrite app_assoc, <- len_app, IH; auto.
    + cbn [map]. rewrite <- app_assoc. reflexivity.
    + simpl in Hfuel. lia.
Qed.

(** Unpacking the packed form gives the normalised elements, whatever
    the capacity of the slice. *)
Lemma Unpack_cap_packed (t : Tuple) (spare : list byte) :
  forallb supported t = true -> forallb wfElement t = true ->
  Unpack_cap (packed t) spare = Ok (map normalize t, None).
Proof.
  intros Hs Hw. unfold Unpack_cap.
  apply (Unpack_loop_packed spare t [] []); auto.
  pose proof (packed_length t Hs Hw). lia.
Qed.

(** ** Round trip and self-delimitation *)

Lemma normalize_canonical (e : Element) :
  supported e = true -> wfElement e = true -> canonical (normalize e) = true.
Proof.
  intros Hs Hw.
  destruct e as [ | | | | | | | |t| | ];
    cbn [normalize canonical wfElement] in Hw |- *; try discriminate;
    try (destruct (LexKey t); try discriminate);
    try reflexivity; try apply is_int64_int64.
  exact Hw.
Qed.

Lemma normalize_id (e : Element) : canonical e = true -> normalize e = e.
Proof. destruct e; try discriminate; reflexivity. Qed.

Lemma map_normalize_id (t : Tuple) :
  forallb canonical t = true -> map normalize t = t.
Proof.
  induction t as [|e t IH]; [reflexivity|].
  cbn [forallb map]. intros H. apply andb_true_iff in H.
  rewrite normalize_id, IH by tauto. reflexivity.
Qed.

Lemma canonical_supported (e : Element) :
  canonical e = true -> supported e = true /\ wfElement e = true.
Proof. destruct e; try discriminate; cbn; auto. Qed.

Lemma canonical_all_supported (t : Tuple) :
  forallb canonical t = true ->
  forallb supported t = true /\ forallb wfElement t = true.
Proof.
  induction t as [|e t IH]; [auto|].
  cbn [forallb]. intros H. apply andb_true_iff in H.
  destruct H as [He Ht]. destruct (canonical_supported e He), (IH Ht).
  split; apply andb_true_iff; auto.
Qed.

(** C2.  Round trip: unpacking the packed form of a tuple of supported
    elements succeeds and gives the tuple back with every element
    normalised: an integer-like element as the [int64] it converts to, a
    byte-convertible element as [[]byte], and nil, [[]byte] and [string]
    elements unchanged.  This holds whatever the capacity of the packed
    slice. *)
Theorem Unpack_Pack_roundtrip (t : Tuple) (spare : list byte) :
  forallb supported t = true -> forallb wfElement t = true ->
  exists k,
    Pack t = Ok k /\
    Unpack_cap k spare = Ok (map normalize t, None) /\
    forallb canonical (map normalize t) = true.
Proof.
  intros Hs Hw. exists (packed t). split; [|split].
  - apply Pack_packed; assumption.
  - apply Unpack_cap_packed; assumption.
  - rewrite forallb_forall in *. intros e He.
    apply in_map_iff in He. destruct He as (e' & <- & He').
    apply normalize_canonical; auto.
Qed.

Lemma Unpack_Pack_roundtrip_witness :
  forallb supported sampleTuple = true /\ forallb wfElement sampleTuple = true /\
  exists k,
    Pack sampleTuple = Ok k /\
    Unpack_cap k [] = Ok (map normalize sampleTuple, None) /\
    forallb canonical (map normalize sampleTuple) = true.
Proof.
  split; [reflexivity|]. split; [reflexivity|].
  apply (Unpack_Pack_roundtrip sampleTuple []); reflexivity.
Defined.

(** C3.  Self-delimitation: for tuples [a] and [b] of supported
    elements, the packed forms concatenated are the packed form of
    [a ++ b], and unpack to the (normalised) elements of [a] followed by
    those of [b]; for tuples of nil, [[]byte], [string] and [int64]
    elements that is [a ++ b] itself. *)
Theorem Unpack_concatenation (a b : Tuple) (spare : list byte) :
  forallb supported a = true -> forallb wfElement a = true ->
  forallb supported b = true -> forallb wfElement b = true ->
  exists ka kb,
    Pack a = Ok ka /\ Pack b = Ok kb /\
    Pack (a ++ b) = Ok (ka ++ kb) /\
    Unpack_cap (ka ++ kb) spare = Ok (map normalize a ++ map normalize b, None) /\
    (forallb canonical a = true -> forallb canonical b = true ->
     Unpack_cap (ka ++ kb) spare = Ok (a ++ b, None)).
Proof.
  intros Hsa Hwa Hsb Hwb.
  assert (Hs : forallb supported (a ++ b) = true)
    by (rewrite forallb_app, Hsa, Hsb; reflexivity).
  assert (Hw : forallb wfElement (a ++ b) = true)
    by (rewrite forallb_app, Hwa, Hwb; reflexivity).
  assert (Hu : Unpack_cap (packed a ++ packed b) spare
               = Ok (map normalize a ++ map normalize b, None)).
  { rewrite <- packed_app, <- map_app. apply Unpack_cap_packed; assumption. }
  exists (packed a), (packed b). repeat split.
  - apply Pack_packed; assumption.
  - apply Pack_packed; assumption.
  - rewrite <- packed_app. apply Pack_packed; assumption.
  - exact Hu.
  - intros Ha Hb. rewrite Hu, !map_normalize_id by assumption. reflexivity.
Qed.

Lemma Unpack_concatenation_witness :
  forallb supported sampleA = true /\ forallb wfElement sampleA = true /\
  forallb supported sampleB = true /\ forallb wfElement sampleB = true /\
  exists ka kb,
    Pack sampleA = Ok ka /\ Pack sampleB = Ok kb /\
    Pack (sampleA ++ sampleB) = Ok (ka ++ kb) /\
    Unpack_cap (ka ++ kb) []
    = Ok (map normalize sampleA ++ map normalize sampleB, None) /\
    (forallb canonical sampleA = true -> forallb canonical sampleB = true ->
     Unpack_cap (ka ++ kb) [] = Ok (sampleA ++ sampleB, None)).
Proof.
  repeat (split; [reflexivity|]).
  apply (Unpack_concatenation sampleA sampleB []); reflexivity.
Defined.

(** C9.  The tuple [("user", 42, nil)] packs to the bytes
    [02 75 73 65 72 00 15 2A 00], and these bytes unpack to
    [("user", 42, nil)] with 42 an [int64]. *)
Theorem Pack_user_42_nil :
  Pack [EString user; EInt 42; ENil]
  = Ok [Byte.x02; Byte.x75; Byte.x73; Byte.x65; Byte.x72; Byte.x00;
        Byte.x15; Byte.x2a; Byte.x00] /\
  forall spare,
    Unpack_cap [Byte.x02; Byte.x75; Byte.x73; Byte.x65; Byte.x72; Byte.x00;
                Byte.x15; Byte.x2a; Byte.x00] spare
    = Ok ([EString user; EInt64 42; ENil], None).
Proof.
  split; [reflexivity|]. intros spare.
  apply (Unpack_cap_packed [EString user; EInt 42; ENil] spare); reflexivity.
Qed.

(** ** Integers *)

Lemma integer_format (i : Z) :
  - 2 ^ 63 <= i < 2 ^ 63 ->
  exists n : nat,
    minimalByteCount (Z.abs i) n /\
    Pack [EInt64 i] = Ok (formatTag i n :: formatPayload i n) /\
    forall spare,
      Unpack_cap (formatTag i n :: formatPayload i n) spare = Ok ([EInt64 i], None).
Proof.
  intros Hi. exists (intWidth i).
  assert (Hw : forallb wfElement [EInt64 i] = true)
    by (cbn; rewrite andb_true_r; apply is_int64_spec, Hi).
  split; [|split].
  - unfold intWidth. destruct (countBelow_sizeLimits (Z.abs i)) as (_ & H2 & H3).
    + rewrite pow2_63, pow2_64 in *. lia.
    + split; assumption.
  - rewrite Pack_packed by (reflexivity || exact Hw).
    unfold packed. cbn [flat_map encoded]. rewrite app_nil_r. reflexivity.
  - intros spare.
    change (formatTag i (intWidth i) :: formatPayload i (intWidth i))
      with (encodedInt i).
    rewrite <- (app_nil_r (encodedInt i)).
    apply (Unpack_cap_packed [EInt64 i] spare); [reflexivity | exact Hw].
Qed.

(** C5.  Each of 0, 1, -1, 255, 256, -256, 2^63-1 and -2^63 packs to the
    tag 0x14 (zero), 0x14 + n (positive) or 0x14 - n (negative), where n
    is the least byte count with magnitude at most 2^(8n) - 1, followed
    by the n low-order big-endian bytes of the value (positive) or of
    2^(8n) - 1 plus the value (negative); and unpacking that gives the
    same [int64] back.  The encodings are listed. *)
Theorem integer_boundaries :
  Forall (fun i =>
            exists n : nat,
              minimalByteCount (Z.abs i) n /\
              Pack [EInt64 i] = Ok (formatTag i n :: formatPayload i n) /\
              forall spare,
                Unpack_cap (formatTag i n :: formatPayload i n) spare
                = Ok ([EInt64 i], None))
         boundaryValues /\
  map (fun i => Pack [EInt64 i]) boundaryValues =
  [ Ok [Byte.x14];
    Ok [Byte.x15; Byte.x01];
    Ok [Byte.x13; Byte.xfe];
    Ok [Byte.x15; Byte.xff];
    Ok [Byte.x16; Byte.x01; Byte.x00];
    Ok [Byte.x12; Byte.xfe; Byte.xff];
    Ok [Byte.x1c; Byte.x7f; Byte.xff; Byte.xff; Byte.xff; Byte.xff; Byte.xff; Byte.xff; Byte.xff];
    Ok [Byte.x0c; Byte.x7f; Byte.xff; Byte.xff; Byte.xff; Byte.xff; Byte.xff; Byte.xff; Byte.xff] ].
Proof.
  split; [|reflexivity].
  unfold boundaryValues.
  repeat (apply Forall_cons; [apply integer_format; rewrite pow2_63; lia|]).
  apply Forall_nil.
Qed.

Lemma int64_wrap (u : Z) : 2 ^ 63 <= u < 2 ^ 64 -> int64 u = u - 2 ^ 64.
Proof.
  intros H. apply (int64_unique u (u - 2 ^ 64) 1);
    rewrite ?pow2_63, ?pow2_64 in *; lia.
Qed.

Lemma encodedInt_negative_tag (i : Z) :
  - 2 ^ 63 <= i < 0 -> exists c r, encodedInt i = c :: r /\ byteZ c < 20.
Proof.
  intros Hi.
  assert (Hr : - 2 ^ 63 <= i < 2 ^ 63) by (rewrite pow2_63 in *; lia).
  destruct (intWidth_abs i Hr) as [Hn _].
  assert (Hn1 : (1 <= intWidth i)%nat) by (apply countBelow_pos; lia).
  unfold encodedInt, formatTag. eexists _, _. split; [reflexivity|].
  replace (i =? 0) with false by (symmetry; apply Z.eqb_neq; lia).
  replace (0 <? i) with false by (symmetry; apply Z.ltb_ge; lia).
  rewrite byteZ_mkbyte_small; lia.
Qed.

(** C10.  An element of type [uint64], [uint32], [int] or [byte] is
    packed as the [int64] it converts to (the value itself where it fits,
    the value less 2^64 for a [uint64] above 2^63 - 1); so a [uint64]
    above 2^63 - 1 is packed with the tag of a negative integer, below
    0x14, and unpacks to that negative [int64]. *)
Theorem unsigned_packed_as_int64 :
  (forall u, Pack [EUint64 u] = Pack [EInt64 (int64 u)]) /\
  (forall u, Pack [EUint32 u] = Pack [EInt64 (int64 u)]) /\
  (forall i, Pack [EInt i] = Pack [EInt64 (int64 i)]) /\
  (forall c, Pack [EByte c] = Pack [EInt64 (int64 (byteZ c))]) /\
  (forall v, - 2 ^ 63 <= v < 2 ^ 63 -> int64 v = v) /\
  (forall u spare, 2 ^ 63 - 1 < u < 2 ^ 64 ->
     int64 u = u - 2 ^ 64 /\ u - 2 ^ 64 < 0 /\
     exists c r,
       Pack [EUint64 u] = Ok (c :: r) /\ byteZ c < 20 /\
       Pack [EInt64 (u - 2 ^ 64)] = Ok (c :: r) /\
       Unpack_cap (c :: r) spare = Ok ([EInt64 (u - 2 ^ 64)], None)).
Proof.
  repeat split; try reflexivity.
  - apply int64_small; assumption.
  - apply int64_wrap. lia.
  - lia.
  - assert (Hi : - 2 ^ 63 <= u - 2 ^ 64 < 0)
      by (rewrite pow2_63, pow2_64 in *; lia).
    assert (Hr : - 2 ^ 63 <= u - 2 ^ 64 < 2 ^ 63)
      by (rewrite pow2_63, pow2_64 in *; lia).
    destruct (encodedInt_negative_tag _ Hi) as (c & r & E & Hc).
    assert (Hw : forallb wfElement [EUint64 u] = true)
      by (cbn; rewrite andb_true_r; apply is_uint64_spec; rewrite pow2_63 in *; lia).
    assert (Hw' : forallb wfElement [EInt64 (u - 2 ^ 64)] = true)
      by (cbn; rewrite andb_true_r; apply is_int64_spec; exact Hr).
    assert (Hp : packed [EUint64 u] = c :: r).
    { unfold packed. cbn [flat_map encoded].
      rewrite app_nil_r, int64_wrap by lia. exact E. }
    assert (Hp' : packed [EInt64 (u - 2 ^ 64)] = c :: r).
    { unfold packed. cbn [flat_map encoded]. rewrite app_nil_r. exact E. }
    exists c, r. repeat split.
    + rewrite <- Hp. apply Pack_packed; [reflexivity | exact Hw].
    + exact Hc.
    + rewrite <- Hp'. apply Pack_packed; [reflexivity | exact Hw'].
    + rewrite <- Hp'.
      apply (Unpack_cap_packed [EInt64 (u - 2 ^ 64)] spare); [reflexivity | exact Hw'].
Qed.

Lemma unsigned_packed_as_int64_witness :
  2 ^ 63 - 1 < 2 ^ 64 - 1 < 2 ^ 64 /\
  int64 (2 ^ 64 - 1) = 2 ^ 64 - 1 - 2 ^ 64 /\ 2 ^ 64 - 1 - 2 ^ 64 < 0 /\
  exists c r,
    Pack [EUint64 (2 ^ 64 - 1)] = Ok (c :: r) /\ byteZ c < 20 /\
    Pack [EInt64 (2 ^ 64 - 1 - 2 ^ 64)] = Ok (c :: r) /\
    Unpack_cap (c :: r) [] = Ok ([EInt64 (2 ^ 64 - 1 - 2 ^ 64)], None).
Proof.
  assert (H : 2 ^ 63 - 1 < 2 ^ 64 - 1 < 2 ^ 64) by (split; reflexivity).
  split; [exact H|].
  exact (proj2 (proj2 (proj2 (proj2 (proj2 unsigned_packed_as_int64))))
           (2 ^ 64 - 1) [] H).
Defined.

(** ** Failures of Pack *)

Lemma Pack_range_app (pre rest : Tuple) :
  forall (i : Z) (buf : bytes.Buffer),
    forallb supported pre = true -> forallb wfElement pre = true ->
    Pack_range (pre ++ rest) i buf = Pack_range rest (i + len pre) (buf ++ packed pre).
Proof.
  induction pre as [|e pre IH]; intros i buf Hs Hw.
  - cbn [app packed flat_map]. change (@len Element []) with 0.
    rewrite app_nil_r, Z.add_0_r. reflexivity.
  - cbn [forallb] in Hs, Hw. apply andb_true_iff in Hs, Hw.
    cbn [app Pack_range]. rewrite encodeElement_encoded by tauto.
    cbn [bind]. rewrite IH by tauto. rewrite len_cons.
    unfold packed. cbn [flat_map]. rewrite app_assoc. f_equal. lia.
Qed.

(** C8, as the code has it.  When the first element that is not of a
    supported type stands at index [len pre], and the [LexKey] of every
    nested tuple before it returns, [Pack] panics there, with that index
    and the value and type of that element in the message, and returns no
    bytes, whatever follows.  When a nested tuple stands there whose own
    [Pack] panics, [Pack] panics with the panic of that call. *)
Theorem Pack_unencodable (pre post : Tuple) :
  forallb supported pre = true -> forallb wfElement pre = true ->
  (forall T v : string,
     Pack (pre ++ EOther T v :: post) = Panic (Unencodable (len pre) v T)) /\
  (forall (nested : Tuple) (p : panic),
     Pack nested = Panic p -> Pack (pre ++ ETuple nested :: post) = Panic p).
Proof.
  intros Hs Hw. split.
  - intros T v. unfold Pack. rewrite Pack_range_app by assumption. reflexivity.
  - intros nested p Hn. unfold Pack. rewrite Pack_range_app by assumption.
    cbn [Pack_range]. rewrite encodeElement_ETuple. unfold LexKey.
    rewrite Hn. reflexivity.
Qed.

Lemma Pack_unencodable_witness :
  forallb supported samplePrefix = true /\ forallb wfElement samplePrefix = true /\
  Pack (samplePrefix ++ EOther "float64" "3.14" :: [ENil; EOther "bool" "true"])
  = Panic (Unencodable 2 "3.14" "float64") /\
  Pack [EOther "float64" "1.5"] = Panic (Unencodable 0 "1.5" "float64") /\
  Pack (samplePrefix ++ ETuple [EOther "float64" "1.5"] :: [ENil; EOther "bool" "true"])
  = Panic (Unencodable 0 "1.5" "float64").
Proof.
  assert (Hs : forallb supported samplePrefix = true) by reflexivity.
  assert (Hw : forallb wfElement samplePrefix = true) by reflexivity.
  assert (Hn : Pack [EOther "float64" "1.5"] = Panic (Unencodable 0 "1.5" "float64"))
    by reflexivity.
  split; [exact Hs|]. split; [exact Hw|].
  split; [exact (proj1 (Pack_unencodable samplePrefix [ENil; EOther "bool" "true"] Hs Hw)
                   "float64"%string "3.14"%string)|].
  split; [exact Hn|].
  exact (proj2 (Pack_unencodable samplePrefix [ENil; EOther "bool" "true"] Hs Hw)
           [EOther "float64" "1.5"] _ Hn).
Defined.

(** C8, as stated, fails on a nested tuple that cannot be packed: in
    [("user", (1.5), true)] the first element of no supported type is
    [true], at index 2, the two before it being a string and a tuple;
    but [Pack] panics in the [LexKey] call on the nested tuple, and the
    message names index 0 and the type [float64]. *)
Lemma Pack_nested_panics_first :
  forallb supported (firstn 2 nestedUnencodable) = true /\
  nth_error nestedUnencodable 2 = Some (EOther "bool" "true") /\
  Pack nestedUnencodable = Panic (Unencodable 0 "1.5" "float64") /\
  Pack nestedUnencodable <> Panic (Unencodable 2 "true" "bool").
Proof.
  split; [reflexivity|]. split; [reflexivity|]. split; [reflexivity|]. discriminate.
Qed.

(** ** Subspaces *)

Lemma app_eq_prefix (p1 p2 r1 r2 : list byte) :
  p1 ++ r1 = p2 ++ r2 -> (exists x, p1 = p2 ++ x) \/ (exists x, p2 = p1 ++ x).
Proof.
  revert p2. induction p1 as [|c p1 IH]; intros p2 H.
  - right. exists p2. reflexivity.
  - destruct p2 as [|d p2].
    + left. exists (c :: p1). reflexivity.
    + injection H as -> H. destruct (IH p2 H) as [[x ->]|[x ->]].
      * left. exists x. reflexivity.
      * right. exists x. reflexivity.
Qed.

Lemma HasPrefix_false (s p : list byte) :
  bytes.HasPrefix s p = false <-> ~ exists r, s = p ++ r.
Proof.
  rewrite <- HasPrefix_spec. destruct (bytes.HasPrefix s p); split; intros H;
    try discriminate; try reflexivity; congruence.
Qed.

(** The only error [tuple.Unpack] returns is the unknown type code. *)
Lemma Unpack_loop_error (fuel : nat) (b spare : list byte) :
  forall (t : Tuple) (i : Z) (r : Tuple) (e : error),
    Unpack_loop fuel b spare t i = Ok (r, Some e) ->
    exists c, e = Errorf_unknown_typecode c.
Proof.
  induction fuel as [|fuel IH]; intros t i r e; cbn [Unpack_loop]; [discriminate|].
  destruct (i <? len b); [|discriminate].
  destruct (index b i) as [c| |]; cbn [bind]; try discriminate.
  destruct (byteZ c =? 0); [apply IH|].
  destruct (byteZ c =? 1).
  { destruct (sliceFrom b i) as [bi| |]; cbn [bind]; try discriminate.
    destruct (decodeBytes bi spare) as [[el off]| |]; cbn [bind]; try discriminate.
    apply IH. }
  destruct (byteZ c =? 2).
  { destruct (sliceFrom b i) as [bi| |]; cbn [bind]; try discriminate.
    destruct (decodeString bi spare) as [[el off]| |]; cbn [bind]; try discriminate.
    apply IH. }
  destruct ((12 <=? byteZ c) && (byteZ c <=? 28)).
  { destruct (sliceFrom b i) as [bi| |]; cbn [bind]; try discriminate.
    destruct (decodeInt bi spare) as [[el off]| |]; cbn [bind]; try discriminate.
    apply IH. }
  intros H. injection H as _ <-. exists c. reflexivity.
Qed.

Lemma subspace_Pack_app (s : subspace.subspace) (t : Tuple) (k : lex.Key) :
  subspace.Pack s t = Ok k -> exists p, Pack t = Ok p /\ k = subspace.b s ++ p.
Proof.
  unfold subspace.Pack. destruct (Pack t) as [p| |]; cbn [bind]; try discriminate.
  rewrite subspace_concat_app. intros H. injection H as <-.
  exists p. auto.
Qed.

(** C7.  [Contains] holds exactly of the keys that start with the prefix
    of the subspace; [Unpack] returns the error "key is not in subspace"
    exactly on the other keys, and on a key that starts with the prefix
    it is [tuple.Unpack] of what follows the prefix.  So for two
    subspaces neither of whose prefixes is a prefix of the other, a key
    packed under the one is not contained in the other, and [Unpack] of
    the other returns that error on it. *)
Theorem subspace_isolation (s : subspace.subspace) (k : lex.Key) (spare : list byte) :
  (subspace.Contains s k = true <-> exists rest, k = subspace.b s ++ rest) /\
  (subspace.Unpack_cap s k spare = Ok ([], Some (errors_New "key is not in subspace"))
   <-> ~ exists rest, k = subspace.b s ++ rest) /\
  (forall rest, k = subspace.b s ++ rest ->
     subspace.Unpack_cap s k spare = tuple.Unpack_cap rest spare) /\
  (forall (s' : subspace.subspace) (t : Tuple),
     bytes.HasPrefix (subspace.b s) (subspace.b s') = false ->
     bytes.HasPrefix (subspace.b s') (subspace.b s) = false ->
     subspace.Pack s' t = Ok k ->
     subspace.Contains s k = false /\
     subspace.Unpack_cap s k spare = Ok ([], Some (errors_New "key is not in subspace"))).
Proof.
  assert (Hin : forall rest, k = subspace.b s ++ rest ->
                subspace.Unpack_cap s k spare = tuple.Unpack_cap rest spare).
  { intros rest ->. unfold subspace.Unpack_cap.
    replace (bytes.HasPrefix (subspace.b s ++ rest) (subspace.b s)) with true
      by (symmetry; apply HasPrefix_spec; exists rest; reflexivity).
    cbn [negb]. rewrite sliceFrom_app. reflexivity. }
  assert (Hout : (~ exists rest, k = subspace.b s ++ rest) ->
                 subspace.Unpack_cap s k spare
                 = Ok ([], Some (errors_New "key is not in subspace"))).
  { intros H. apply HasPrefix_false in H. unfold subspace.Unpack_cap.
    rewrite H. reflexivity. }
  split; [apply HasPrefix_spec|]. split; [|split].
  - split; [|exact Hout].
    intros H [rest Hk]. rewrite (Hin rest Hk) in H.
    apply Unpack_loop_error in H. destruct H as [c H]. discriminate.
  - exact Hin.
  - intros s' t H1 H2 Hp.
    apply subspace_Pack_app in Hp. destruct Hp as (p & _ & ->).
    assert (Hno : ~ exists rest, subspace.b s' ++ p = subspace.b s ++ rest).
    { intros [rest E]. apply HasPrefix_false in H1, H2.
      destruct (app_eq_prefix _ _ _ _ E) as [Hx|Hx]; [apply H2 | apply H1]; exact Hx. }
    split; [apply HasPrefix_false, Hno | apply Hout, Hno].
Qed.

Lemma subspace_isolation_witness :
  bytes.HasPrefix (subspace.b sampleSubspace) (subspace.b otherSubspace) = false /\
  bytes.HasPrefix (subspace.b otherSubspace) (subspace.b sampleSubspace) = false /\
  subspace.Pack otherSubspace [EString user] = Ok otherKey /\
  subspace.Contains sampleSubspace otherKey = false /\
  subspace.Unpack_cap sampleSubspace otherKey []
  = Ok ([], Some (errors_New "key is not in subspace")).
Proof.
  assert (H1 : bytes.HasPrefix (subspace.b sampleSubspace) (subspace.b otherSubspace) = false)
    by reflexivity.
  assert (H2 : bytes.HasPrefix (subspace.b otherSubspace) (subspace.b sampleSubspace) = false)
    by reflexivity.
  assert (H3 : subspace.Pack otherSubspace [EString user] = Ok otherKey) by reflexivity.
  split; [exact H1|]. split; [exact H2|]. split; [exact H3|].
  exact (proj2 (proj2 (proj2 (subspace_isolation sampleSubspace otherKey [])))
           otherSubspace [EString user] H1 H2 H3).
Defined.

(** ** Failures of Unpack *)

Lemma decodeBytes_offset (b spare el : list byte) (off : Z) :
  decodeBytes b spare = Ok (el, off) -> 2 <= off.
Proof.
  unfold decodeBytes.
  destruct (sliceFrom b 1) as [b1| |]; cbn [bind]; try discriminate.
  destruct (findTerminator b1) as [idx| |]; cbn [bind]; try discriminate.
  unfold slice.
  destruct ((0 <=? 1) && (1 <=? idx + 1) && (idx + 1 <=? len b + len spare)) eqn:E;
    cbn [bind]; try discriminate.
  intros H. injection H as _ <-.
  apply andb_true_iff in E. destruct E as [E _].
  apply andb_true_iff in E. lia.
Qed.

Lemma decodeString_offset (b spare el : list byte) (off : Z) :
  decodeString b spare = Ok (el, off) -> 2 <= off.
Proof.
  unfold decodeString.
  destruct (decodeBytes b spare) as [[bp idx]| |] eqn:E; cbn [bind]; try discriminate.
  intros H. injection H as _ <-. apply (decodeBytes_offset _ _ _ _ E).
Qed.

Lemma decodeInt_offset (b spare : list byte) (el off : Z) :
  decodeInt b spare = Ok (el, off) -> 1 <= off.
Proof.
  unfold decodeInt.
  destruct (index b 0) as [b0| |]; cbn [bind]; try discriminate.
  destruct (byteZ b0 =? 20); [intros H; injection H as _ <-; lia|].
  destruct (Z.ltb_spec (byteZ b0 - 20) 0) as [Hn|Hn].
  - destruct (slice b spare 1 (- (byteZ b0 - 20) + 1)); cbn [bind]; try discriminate.
    destruct (copyAt (make 8) (8 - - (byteZ b0 - 20)) a); cbn [bind]; try discriminate.
    destruct (index sizeLimits (- (byteZ b0 - 20))); cbn [bind]; try discriminate.
    intros H. injection H as _ <-. lia.
  - destruct (slice b spare 1 (byteZ b0 - 20 + 1)); cbn [bind]; try discriminate.
    destruct (copyAt (make 8) (8 - (byteZ b0 - 20)) a); cbn [bind]; try discriminate.
    intros H. injection H as _ <-. lia.
Qed.

(** A state the loop passes through is reached with enough of the budget
    left for the rest of the input. *)
Lemma boundary_loop (b spare : list byte) (t : Tuple) (i : Z) :
  boundary b spare t i ->
  exists fuel : nat,
    len b - i < Z.of_nat fuel /\
    Unpack_cap b spare = Unpack_loop fuel b spare t i.
Proof.
  induction 1 as [ | t i c Hb IH Hi Hc Hz
                   | t i c bi el off Hb IH Hi Hc Hz Hs Hd
                   | t i c bi el off Hb IH Hi Hc Hz Hs Hd
                   | t i c bi el off Hb IH Hi Hc Hz Hs Hd ].
  - exists (S (List.length b)). split; [unfold len; lia | reflexivity].
  - destruct IH as (fuel & Hf & ->).
    destruct fuel as [|fuel]; [lia|]. exists fuel. split; [lia|].
    cbn [Unpack_loop]. apply Z.ltb_lt in Hi. rewrite Hi, Hc. cbn [bind].
    rewrite Hz. reflexivity.
  - destruct IH as (fuel & Hf & ->).
    destruct fuel as [|fuel]; [lia|]. exists fuel.
    pose proof (decodeBytes_offset _ _ _ _ Hd). split; [lia|].
    cbn [Unpack_loop]. apply Z.ltb_lt in Hi. rewrite Hi, Hc. cbn [bind].
    rewrite Hz, Hs. cbn [Z.eqb Pos.eqb bind]. rewrite Hd. reflexivity.
  - destruct IH as (fuel & Hf & ->).
    destruct fuel as [|fuel]; [lia|]. exists fuel.
    pose proof (decodeString_offset _ _ _ _ Hd). split; [lia|].
    cbn [Unpack_loop]. apply Z.ltb_lt in Hi. rewrite Hi, Hc. cbn [bind].
    rewrite Hz, Hs. cbn [Z.eqb Pos.eqb bind]. rewrite Hd. reflexivity.
  - destruct IH as (fuel & Hf & ->).
    destruct fuel as [|fuel]; [lia|]. exists fuel.
    pose proof (decodeInt_offset _ _ _ _ Hd). split; [lia|].
    cbn [Unpack_loop]. apply Z.ltb_lt in Hi. rewrite Hi, Hc. cbn [bind].
    replace (byteZ c =? 0) with false by (symmetry; apply Z.eqb_neq; lia).
    replace (byteZ c =? 1) with false by (symmetry; apply Z.eqb_neq; lia).
    replace (byteZ c =? 2) with false by (symmetry; apply Z.eqb_neq; lia).
    replace ((12 <=? byteZ c) && (byteZ c <=? 28)) with true
      by (symmetry; apply andb_true_iff; lia).
    rewrite Hs. cbn [bind]. rewrite Hd. reflexivity.
Qed.

(** The element boundaries of a packed tuple are states of the loop. *)
Lemma boundary_packed (spare rest : list byte) (t : Tuple) :
  forall (pre : list byte) (acc : Tuple) (b : list byte),
    forallb supported t = true -> forallb wfElement t = true ->
    tagHeaded rest ->
    b = pre ++ packed t ++ rest ->
    boundary b spare acc (len pre) ->
    boundary b spare (acc ++ map normalize t) (len pre + len (packed t)).
Proof.
  induction t as [|e t IH]; intros pre acc b Hs Hw Hrest Hb Hacc.
  - cbn [map packed flat_map]. change (@len byte []) with 0.
    rewrite app_nil_r, Z.add_0_r. exact Hacc.
  - cbn [forallb] in Hs, Hw. apply andb_true_iff in Hs, Hw.
    destruct Hs as [Hs Hst], Hw as [Hw Hwt].
    change (packed (e :: t)) with (encoded e ++ packed t) in *.
    rewrite <- app_assoc in Hb.
    assert (Hrest' : tagHeaded (packed t ++ rest)).
    { pose proof (packed_tagHeaded t Hst Hwt) as H.
      destruct (packed t); [exact Hrest | exact H]. }
    destruct (encoded_head e Hs Hw) as (c & r & E & Hc).
    assert (Hi : len pre < len b).
    { subst b. rewrite E, len_app. cbn [app]. rewrite len_cons.
      pose proof (len_nonneg (r ++ packed t ++ rest)). lia. }
    assert (Hidx : index b (len pre) = Ok c)
      by (subst b; rewrite E; apply index_app_head).
    assert (Hsl : sliceFrom b (len pre) = Ok (encoded e ++ packed t ++ rest))
      by (subst b; apply sliceFrom_app).
    assert (Hstep : boundary b spare (acc ++ [normalize e]) (len pre + len (encoded e))).
    { assert (Hint : forall i, - 2 ^ 63 <= i < 2 ^ 63 -> encoded e = encodedInt i ->
                boundary b spare (acc ++ [EInt64 i]) (len pre + len (encoded e))).
      { intros i Hi' Ee. rewrite Ee in *.
        destruct (encodedInt_head i Hi') as (c' & r' & E' & Hc').
        assert (c' = c) by congruence. subst c'.
        apply (boundary_int b spare acc (len pre) c _ i _ Hacc Hi Hidx Hc' Hsl).
        apply decodeInt_encodedInt, Hi'. }
      assert (Hbytes : forall s, encoded e = Byte.x01 :: escape s ++ [Byte.x00] ->
                boundary b spare (acc ++ [EBytes s]) (len pre + len (encoded e))).
      { intros s Ee. rewrite Ee in *. injection E as <- _.
        replace (len (Byte.x01 :: escape s ++ [Byte.x00])) with (len (escape s) + 2)
          by (rewrite len_cons, len_app, len_cons; change (@len byte []) with 0; lia).
        apply (boundary_bytes b spare acc (len pre) Byte.x01 _ s _ Hacc Hi Hidx eq_refl Hsl).
        cbn [app]. rewrite <- app_assoc. cbn [app].
        apply decodeBytes_escape, Hrest'. }
      destruct e as [ | | | | | | | |nested|s| ]; cbn [normalize]; try discriminate;
        try (cbn [wfElement] in Hw;
             destruct (LexKey nested) as [k| |] eqn:EL; try discriminate;
             apply Hbytes; cbn [encoded]; rewrite EL; reflexivity);
        try (apply Hint; [apply int64_range | reflexivity]);
        try (apply Hbytes; reflexivity).
      - cbn [encoded] in *. injection E as <- _.
        apply (boundary_nil b spare acc (len pre) Byte.x00 Hacc Hi Hidx eq_refl).
      - apply Hint; [apply is_int64_spec, Hw | reflexivity].
      - cbn [encoded] in *. injection E as <- _.
        replace (len (Byte.x02 :: escape s ++ [Byte.x00])) with (len (escape s) + 2)
          by (rewrite len_cons, len_app, len_cons; change (@len byte []) with 0; lia).
        apply (boundary_string b spare acc (len pre) Byte.x02 _ s _ Hacc Hi Hidx eq_refl Hsl).
        unfold decodeString. cbn [app]. rewrite <- app_assoc. cbn [app].
        rewrite decodeBytes_escape by exact Hrest'. reflexivity. }
    rewrite <- len_app in Hstep.
    specialize (IH (pre ++ encoded e) (acc ++ [normalize e]) b Hst Hwt Hrest).
    rewrite <- app_assoc in IH. specialize (IH Hb Hstep).
    cbn [map]. rewrite len_app in *. rewrite <- app_assoc in IH. cbn [app] in IH.
    replace (len pre + (len (encoded e) + len (packed t)))
      with (len pre + len (encoded e) + len (packed t)) by lia.
    exact IH.
Qed.

(** After a packed tuple, a byte that is no type code (and not the 0xFF
    that would continue a byte string) is reported. *)
Lemma Unpack_cap_packed_unknown (t : Tuple) (c : byte) (rest spare : list byte) :
  forallb supported t = true -> forallb wfElement t = true ->
  isTypecode c = false -> byteZ c < 255 ->
  Unpack_cap (packed t ++ c :: rest) spare = Ok ([], Some (Errorf_unknown_typecode c)).
Proof.
  intros Hs Hw Hc Hff.
  pose proof (boundary_packed spare (c :: rest) t [] [] (packed t ++ c :: rest)
                Hs Hw Hff eq_refl (boundary_start _ _)) as Hb.
  change (@len byte []) with 0 in Hb. rewrite Z.add_0_l in Hb. cbn [app] in Hb.
  destruct (boundary_loop _ _ _ _ Hb) as (fuel & Hf & ->).
  destruct fuel as [|fuel]; [rewrite len_app, len_cons in Hf; pose proof (len_nonneg rest); lia|].
  rewrite (Unpack_loop_at fuel (packed t) rest spare c). cbv zeta.
  unfold isTypecode in Hc.
  apply orb_false_iff in Hc. destruct Hc as [Hc H3].
  apply orb_false_iff in Hc. destruct Hc as [Hc H2].
  apply orb_false_iff in Hc. destruct Hc as [H0 H1].
  rewrite H0, H1, H2, H3. reflexivity.
Qed.

(** The decode failure that is reported.  When the loop of [Unpack]
    stands at an element boundary (the start of the input, or the offset
    just past a decoded element) and the byte there is none of 0x00,
    0x01, 0x02, 0x0C..0x1C, [Unpack] returns the nil tuple and an error
    whose message carries that byte (and no offset). *)
Theorem Unpack_unknown_typecode (b spare : list byte) (t : Tuple) (i : Z) (c : byte) :
  boundary b spare t i -> i < len b -> index b i = Ok c ->
  isTypecode c = false ->
  Unpack_cap b spare = Ok ([], Some (Errorf_unknown_typecode c)).
Proof.
  intros Hb Hi Hc Ht.
  destruct (boundary_loop b spare t i Hb) as (fuel & Hf & ->).
  destruct fuel as [|fuel]; [lia|].
  cbn [Unpack_loop]. apply Z.ltb_lt in Hi. rewrite Hi, Hc. cbn [bind].
  unfold isTypecode in Ht.
  apply orb_false_iff in Ht. destruct Ht as [Ht H3].
  apply orb_false_iff in Ht. destruct Ht as [Ht H2].
  apply orb_false_iff in Ht. destruct Ht as [H0 H1].
  rewrite H0, H1, H2, H3. reflexivity.
Qed.

Lemma Unpack_unknown_typecode_witness :
  boundary sampleInput [] [ENil; EInt64 42; EBytes [Byte.x61]] 6 /\
  6 < len sampleInput /\ index sampleInput 6 = Ok Byte.x03 /\
  isTypecode Byte.x03 = false /\
  Unpack_cap sampleInput [] = Ok ([], Some (Errorf_unknown_typecode Byte.x03)).
Proof.
  assert (H1 : boundary sampleInput [] [ENil] 1).
  { apply (boundary_nil sampleInput [] [] 0 Byte.x00); [constructor | | |]; reflexivity. }
  assert (H2 : boundary sampleInput [] [ENil; EInt64 42] 3).
  { apply (boundary_int sampleInput [] [ENil] 1 Byte.x15 (skipn 1 sampleInput) 42 2 H1);
      [reflexivity | reflexivity | split; discriminate | reflexivity | reflexivity]. }
  assert (H3 : boundary sampleInput [] [ENil; EInt64 42; EBytes [Byte.x61]] 6).
  { apply (boundary_bytes sampleInput [] [ENil; EInt64 42] 3 Byte.x01
             (skipn 3 sampleInput) [Byte.x61] 3 H2);
      reflexivity. }
  assert (H4 : 6 < len sampleInput) by reflexivity.
  assert (H5 : index sampleInput 6 = Ok Byte.x03) by reflexivity.
  assert (H6 : isTypecode Byte.x03 = false) by reflexivity.
  repeat (split; [assumption|]).
  exact (Unpack_unknown_typecode sampleInput [] _ 6 Byte.x03 H3 H4 H5 H6).
Defined.

(** C6.  A byte string cut before its terminator is not reported,
    against the doc comment of [Unpack] (an error if the key does not
    correctly encode a tuple): the input [01 FF] has no zero byte after
    the tag, and [Unpack] returns a tuple holding an empty byte string,
    with no error. *)
Lemma Unpack_truncated_accepted :
  bytes.IndexByte (skipn 1 truncatedBytes) Byte.x00 = -1 /\
  Unpack truncatedBytes = Ok ([EBytes []], None) /\
  forall e, Unpack truncatedBytes <> Ok ([], Some e).
Proof.
  split; [reflexivity|]. split; [reflexivity|]. intros e. discriminate.
Qed.

(** Other inputs that are cut short make [Unpack] panic on a slice
    expression, or, for an integer, read on into the capacity. *)
Example Unpack_truncated_bytes_panics :
  Unpack [Byte.x01; Byte.x61] = Panic SliceBoundsOutOfRange.
Proof. reflexivity. Qed.

Example Unpack_truncated_int_panics :
  Unpack [Byte.x16; Byte.x01] = Panic SliceBoundsOutOfRange.
Proof. reflexivity. Qed.

Example Unpack_truncated_int_reads_capacity :
  Unpack_cap [Byte.x16; Byte.x01] [Byte.x00; Byte.x07] = Ok ([EInt64 256], None).
Proof. reflexivity. Qed.

(** ** Order preservation *)

Lemma escape_cons_app (c : byte) (s : list byte) :
  escape (c :: s)
  = (if byteZ c =? 0 then [Byte.x00; Byte.xff] else [c]) ++ escape s.
Proof. rewrite escape_cons. destruct (byteZ c =? 0); reflexivity. Qed.

(** The escaped and terminated forms of two byte strings in order either
    differ first at a smaller byte, or the larger continues the smaller
    with 0xFF: the escape of a zero byte where the smaller has its
    terminator. *)
Lemma escape_lt (s s' : list byte) :
  bytes.Compare s s' = Lt ->
  diverges (escape s ++ [Byte.x00]) (escape s' ++ [Byte.x00]) \/
  exists w, w <> [] /\
            escape s' ++ [Byte.x00] = (escape s ++ [Byte.x00]) ++ Byte.xff :: w.
Proof.
  revert s'. induction s as [|a s IH]; intros [|b s']; cbn [bytes.Compare];
    try discriminate.
  - intros _. rewrite escape_cons, escape_nil. cbn [app].
    destruct (Z.eqb_spec (byteZ b) 0) as [E|E].
    + right. exists (escape s' ++ [Byte.x00]). split; [|reflexivity].
      destruct (escape s'); discriminate.
    + left. apply diverges_head. change (byteZ Byte.x00) with 0.
      pose proof (byteZ_range b). lia.
  - destruct (Z.compare_spec (byteZ a) (byteZ b)) as [E|L|G]; try discriminate.
    + apply byteZ_inj in E. subst b. intros H.
      rewrite !escape_cons_app, <- !app_assoc.
      destruct (IH s' H) as [D|(w & Hw & E)].
      * left. apply diverges_app_l, D.
      * right. exists w. split; [exact Hw|]. rewrite E, <- !app_assoc. reflexivity.
    + intros _. left. rewrite !escape_cons.
      pose proof (byteZ_range a).
      replace (byteZ b =? 0) with false by (symmetry; apply Z.eqb_neq; lia).
      destruct (Z.eqb_spec (byteZ a) 0) as [E|E]; cbn [app].
      * apply diverges_head. change (byteZ Byte.x00) with 0. lia.
      * apply diverges_head, L.
Qed.

Lemma formatTag_value (i : Z) :
  - 2 ^ 63 <= i < 2 ^ 63 ->
  byteZ (formatTag i (intWidth i)) = 20 + Z.sgn i * Z.of_nat (intWidth i).
Proof.
  intros Hi. destruct (intWidth_abs i Hi) as [Hn _]. unfold formatTag.
  destruct (Z.eqb_spec i 0) as [->|Hnz]; [reflexivity|].
  destruct (Z.ltb_spec 0 i); rewrite byteZ_mkbyte_small; lia.
Qed.

(** The encodings of two integers in order differ first at a smaller
    byte. *)
Lemma encodedInt_lt (i j : Z) :
  - 2 ^ 63 <= i < 2 ^ 63 -> - 2 ^ 63 <= j < 2 ^ 63 -> i < j ->
  diverges (encodedInt i) (encodedInt j).
Proof.
  intros Hi Hj Hlt.
  destruct (intWidth_abs i Hi) as [Hni Hfi], (intWidth_abs j Hj) as [Hnj Hfj].
  pose proof (formatTag_value i Hi) as Ti.
  pose proof (formatTag_value j Hj) as Tj.
  assert (Hposw : forall k, k <> 0 -> (1 <= intWidth k)%nat)
    by (intros k Hk; apply countBelow_pos; lia).
  unfold encodedInt.
  destruct (Z.eq_dec (byteZ (formatTag i (intWidth i))) (byteZ (formatTag j (intWidth j))))
    as [E|NE].
  - (* one tag: one sign and one width *)
    assert (Hw : intWidth i = intWidth j).
    { destruct (Z.eq_dec i 0), (Z.eq_dec j 0);
        try (pose proof (Hposw i)); try (pose proof (Hposw j)); nia. }
    pose proof E as E'. apply byteZ_inj in E. rewrite E, <- Hw.
    apply diverges_cons. unfold formatPayload.
    destruct (Z.leb_spec 0 i), (Z.leb_spec 0 j); try lia.
    + apply bigEndian_lt; try lia.
      assert (j <> 0) by lia. rewrite Hw. lia.
    + assert (i <> 0) by lia. pose proof (Hposw i). nia.
    + apply bigEndian_lt; lia.
  - apply diverges_head.
    assert (Hm : i < 0 -> j < 0 -> (intWidth j <= intWidth i)%nat)
      by (intros; apply countBelow_mono; lia).
    assert (Hp : 0 < i -> (intWidth i <= intWidth j)%nat)
      by (intros; apply countBelow_mono; lia).
    destruct (Z.eq_dec i 0), (Z.eq_dec j 0);
      try (pose proof (Hposw i)); try (pose proof (Hposw j)); nia.
Qed.

Lemma Element_compare_eq (e f : Element) :
  canonical e = true -> canonical f = true ->
  Element_compare e f = Eq -> e = f.
Proof.
  destruct e, f; try discriminate; cbn [Element_compare]; intros _ _ H;
    try reflexivity.
  - apply Z.compare_eq in H. congruence.
  - apply Compare_eq in H. congruence.
  - apply Compare_eq in H. congruence.
Qed.

Lemma Element_compare_antisym (e f : Element) :
  Element_compare f e = CompOpp (Element_compare e f).
Proof.
  destruct e, f; cbn [Element_compare];
    try apply Compare_antisym; try apply Z.compare_antisym; reflexivity.
Qed.

Lemma tagHeaded_belowEscape (X : list byte) : tagHeaded X -> belowEscape X.
Proof.
  intros H w Y _. destruct X as [|c X]; [reflexivity|].
  simpl in H. cbn [bytes.Compare]. change (byteZ Byte.xff) with 255.
  apply Z.compare_lt_iff in H. rewrite H. reflexivity.
Qed.

Lemma encoded_lt_Compare (e f : Element) (X Y : list byte) :
  canonical e = true -> canonical f = true ->
  Element_compare e f = Lt -> belowEscape X ->
  bytes.Compare (encoded e ++ X) (encoded f ++ Y) = Lt.
Proof.
  intros He Hf Hlt HX.
  assert (Hstr : forall (code : byte) (s s' : list byte),
             bytes.Compare s s' = Lt ->
             bytes.Compare ((code :: escape s ++ [Byte.x00]) ++ X)
                           ((code :: escape s' ++ [Byte.x00]) ++ Y) = Lt).
  { intros code s s' H. destruct (escape_lt s s' H) as [D|(w & Hw & E)].
    - apply diverges_Compare, diverges_cons, D.
    - replace (code :: escape s' ++ [Byte.x00])
        with ((code :: escape s ++ [Byte.x00]) ++ Byte.xff :: w)
        by (cbn [app]; rewrite E; reflexivity).
      rewrite <- (app_assoc _ (Byte.xff :: w) Y), Compare_app_l.
      cbn [app]. apply HX, Hw. }
  assert (Hhead : forall (c c' : byte) (u v : list byte),
             byteZ c < byteZ c' ->
             bytes.Compare ((c :: u) ++ X) ((c' :: v) ++ Y) = Lt).
  { intros c c' u v H. apply diverges_Compare, diverges_head, H. }
  destruct e, f; try discriminate; cbn [Element_compare encoded] in *;
    try (exfalso; cbv in Hlt; discriminate Hlt).
  all: try (apply Hstr, Hlt).
  all: try (apply Hhead; reflexivity).
  all: try (apply Z.compare_lt_iff in Hlt; apply is_int64_spec in He, Hf;
            apply diverges_Compare, encodedInt_lt; assumption).
  all: apply is_int64_spec in Hf;
    destruct (encodedInt_head _ Hf) as (c & r & -> & Hc);
    apply Hhead;
    match goal with
    | |- byteZ ?a < _ => let v := eval cbv in (byteZ a) in change (byteZ a) with v
    end; lia.
Qed.

Lemma encoded_nonempty (e : Element) :
  canonical e = true -> encoded e <> [].
Proof.
  intros He. destruct (canonical_supported e He) as [Hs Hw].
  destruct (encoded_head e Hs Hw) as (c & r & -> & _). discriminate.
Qed.

Lemma packed_canonical_tagHeaded (t : Tuple) :
  forallb canonical t = true -> tagHeaded (packed t).
Proof.
  intros H. destruct (canonical_all_supported t H). apply packed_tagHeaded; assumption.
Qed.

(** The packed forms of two tuples compare as the tuples do. *)
Lemma packed_Compare (A : Tuple) :
  forall B : Tuple,
    forallb canonical A = true -> forallb canonical B = true ->
    bytes.Compare (packed A) (packed B) = Tuple_compare A B.
Proof.
  induction A as [|e A IH]; intros [|f B] HA HB.
  - reflexivity.
  - cbn [forallb] in HB. apply andb_true_iff in HB.
    cbn [Tuple_compare]. change (packed (f :: B)) with (encoded f ++ packed B).
    apply Compare_nil_l. intros H. apply app_eq_nil in H.
    apply (encoded_nonempty f); tauto.
  - cbn [forallb] in HA. apply andb_true_iff in HA.
    cbn [Tuple_compare]. change (packed (e :: A)) with (encoded e ++ packed A).
    rewrite Compare_antisym, Compare_nil_l; [reflexivity|].
    intros H. apply app_eq_nil in H. apply (encoded_nonempty e); tauto.
  - cbn [forallb] in HA, HB. apply andb_true_iff in HA, HB.
    destruct HA as [He HA], HB as [Hf HB].
    change (packed (e :: A)) with (encoded e ++ packed A).
    change (packed (f :: B)) with (encoded f ++ packed B).
    cbn [Tuple_compare].
    destruct (Element_compare e f) eqn:E.
    + apply Element_compare_eq in E; try assumption. subst f.
      rewrite Compare_app_l. apply IH; assumption.
    + apply encoded_lt_Compare; try assumption.
      apply tagHeaded_belowEscape, packed_canonical_tagHeaded, HA.
    + rewrite Compare_antisym, encoded_lt_Compare; try assumption.
      * reflexivity.
      * rewrite Element_compare_antisym, E. reflexivity.
      * apply tagHeaded_belowEscape, packed_canonical_tagHeaded, HB.
Qed.

(** C1.  Order preservation: for tuples [A] and [B] of nil, byte string,
    unicode string and [int64] elements, [A] is below [B] in the order of
    tuples exactly when the packed form of [A] is below the packed form
    of [B] in the byte-lexicographic order; indeed the two comparisons
    agree. *)
Theorem order_preservation (A B : Tuple) :
  forallb canonical A = true -> forallb canonical B = true ->
  exists ka kb,
    Pack A = Ok ka /\ Pack B = Ok kb /\
    (Tuple_compare A B = Lt <-> bytes.Compare ka kb = Lt) /\
    bytes.Compare ka kb = Tuple_compare A B.
Proof.
  intros HA HB.
  destruct (canonical_all_supported A HA) as [HsA HwA].
  destruct (canonical_all_supported B HB) as [HsB HwB].
  exists (packed A), (packed B).
  rewrite !Pack_packed, packed_Compare by assumption.
  repeat split; auto.
Qed.

Lemma order_preservation_witness :
  forallb canonical sampleLow = true /\ forallb canonical sampleHigh = true /\
  exists ka kb,
    Pack sampleLow = Ok ka /\ Pack sampleHigh = Ok kb /\
    (Tuple_compare sampleLow sampleHigh = Lt <-> bytes.Compare ka kb = Lt) /\
    bytes.Compare ka kb = Tuple_compare sampleLow sampleHigh.
Proof.
  assert (HA : forallb canonical sampleLow = true) by reflexivity.
  assert (HB : forallb canonical sampleHigh = true) by reflexivity.
  split; [exact HA|]. split; [exact HB|].
  exact (order_preservation sampleLow sampleHigh HA HB).
Defined.

(** ** Prefix ranges *)

Lemma inRange_app_l (p lo hi k : list byte) :
  inRange (p ++ lo) (p ++ hi) (p ++ k) = inRange lo hi k.
Proof. unfold inRange. rewrite !Compare_app_l. reflexivity. Qed.

Lemma encoded_normalize (e : Element) : encoded (normalize e) = encoded e.
Proof.
  destruct e as [ | | | | | | | |t| | ]; try reflexivity.
  cbn [normalize encoded]. destruct (LexKey t) eqn:E; cbn [encoded]; rewrite ?E; reflexivity.
Qed.

Lemma packed_normalize (t : Tuple) : packed (map normalize t) = packed t.
Proof.
  induction t as [|e t IH]; [reflexivity|].
  cbn [map]. unfold packed in *. cbn [flat_map].
  rewrite encoded_normalize, IH. reflexivity.
Qed.

Lemma belowEscape_range_end (t : Tuple) :
  forallb canonical t = true -> belowEscape (packed t ++ [Byte.xff]).
Proof.
  intros Ht. destruct t as [|e t].
  - intros w Y Hw. cbn [packed flat_map app bytes.Compare].
    rewrite Z.compare_refl. apply Compare_nil_l.
    destruct w; [congruence | discriminate].
  - apply tagHeaded_belowEscape.
    pose proof (packed_canonical_tagHeaded (e :: t) Ht) as H.
    cbn [forallb] in Ht. apply andb_true_iff in Ht.
    pose proof (encoded_nonempty e (proj1 Ht)) as Hne.
    change (packed (e :: t)) with (encoded e ++ packed t) in *.
    destruct (encoded e); [congruence | exact H].
Qed.

(** A packed key inside the range of [p] is the key of a tuple that
    strictly extends [p]. *)
Lemma inRange_extends (p : Tuple) :
  forall q : Tuple,
    forallb canonical p = true -> forallb canonical q = true ->
    inRange (packed p ++ [Byte.x00]) (packed p ++ [Byte.xff]) (packed q) = true ->
    strictlyExtends q p.
Proof.
  induction p as [|e p IH]; intros [|f q] Hp Hq Hin.
  - discriminate.
  - exists (f :: q). split; [discriminate | reflexivity].
  - exfalso. change (packed (e :: p)) with (encoded e ++ packed p) in Hin.
    cbn [forallb] in Hp. apply andb_true_iff in Hp.
    pose proof (encoded_nonempty e (proj1 Hp)) as Hne.
    unfold inRange in Hin. cbn [packed flat_map] in Hin.
    destruct (encoded e); [congruence | discriminate].
  - cbn [forallb] in Hp, Hq. apply andb_true_iff in Hp, Hq.
    destruct Hp as [He Hp], Hq as [Hf Hq].
    change (packed (e :: p)) with (encoded e ++ packed p) in Hin.
    change (packed (f :: q)) with (encoded f ++ packed q) in Hin.
    rewrite <- !app_assoc in Hin.
    destruct (Element_compare e f) eqn:E.
    + apply Element_compare_eq in E; try assumption. subst f.
      rewrite inRange_app_l in Hin.
      destruct (IH q Hp Hq Hin) as (r & Hr & ->).
      exists r. split; [exact Hr | reflexivity].
    + exfalso. unfold inRange in Hin.
      rewrite (Compare_antisym (encoded e ++ packed p ++ [Byte.xff])) in Hin.
      rewrite (encoded_lt_Compare e f (packed p ++ [Byte.xff]) (packed q)) in Hin
        by (try assumption; apply belowEscape_range_end, Hp).
      destruct (bytes.Compare (encoded e ++ packed p ++ [Byte.x00])
                              (encoded f ++ packed q)); discriminate.
    + exfalso. unfold inRange in Hin.
      rewrite (Compare_antisym (encoded f ++ packed q)) in Hin.
      rewrite (encoded_lt_Compare f e (packed q) (packed p ++ [Byte.x00])) in Hin;
        [discriminate | assumption | assumption | |].
      * rewrite Element_compare_antisym, E. reflexivity.
      * apply tagHeaded_belowEscape, packed_canonical_tagHeaded, Hq.
Qed.

Lemma all_normalize_canonical (t : Tuple) :
  forallb supported t = true -> forallb wfElement t = true ->
  forallb canonical (map normalize t) = true.
Proof.
  intros Hs Hw. rewrite forallb_forall in *. intros e He.
  apply in_map_iff in He. destruct He as (e' & <- & He').
  apply normalize_canonical; auto.
Qed.

(** C4.  [LexRangeKeys] of a tuple [p] returns its packed form followed
    by 0x00 and by 0xFF.  The packed form of [p] extended by one element,
    [x] or [y], lies in the range from the first (included) to the second
    (excluded), strictly above the packed form of [p]; the packed form of
    [p] itself does not lie in the range, and neither does the packed
    form of any tuple that, normalised, does not strictly extend [p]. *)
Theorem prefix_range (p : Tuple) :
  forallb supported p = true -> forallb wfElement p = true ->
  exists kp,
    Pack p = Ok kp /\
    LexRangeKeys p = Ok (kp ++ [Byte.x00], kp ++ [Byte.xff]) /\
    (forall x y : Element,
       x <> y ->
       supported x = true -> wfElement x = true ->
       supported y = true -> wfElement y = true ->
       exists kx ky,
         Pack (p ++ [x]) = Ok kx /\ Pack (p ++ [y]) = Ok ky /\
         inRange (kp ++ [Byte.x00]) (kp ++ [Byte.xff]) kx = true /\
         inRange (kp ++ [Byte.x00]) (kp ++ [Byte.xff]) ky = true /\
         bytes.Compare kp kx = Lt /\ bytes.Compare kp ky = Lt) /\
    inRange (kp ++ [Byte.x00]) (kp ++ [Byte.xff]) kp = false /\
    (forall q : Tuple,
       forallb supported q = true -> forallb wfElement q = true ->
       ~ strictlyExtends (map normalize q) (map normalize p) ->
       exists kq,
         Pack q = Ok kq /\
         inRange (kp ++ [Byte.x00]) (kp ++ [Byte.xff]) kq = false).
Proof.
  intros Hs Hw. exists (packed p).
  assert (Hone : forall x, supported x = true -> wfElement x = true ->
            Pack (p ++ [x]) = Ok (packed p ++ encoded x) /\
            inRange (packed p ++ [Byte.x00]) (packed p ++ [Byte.xff])
                    (packed p ++ encoded x) = true /\
            bytes.Compare (packed p) (packed p ++ encoded x) = Lt).
  { intros x Hx Hwx. split; [|split].
    - rewrite Pack_packed, packed_app.
      + unfold packed at 2. cbn [flat_map]. rewrite app_nil_r. reflexivity.
      + rewrite forallb_app, Hs. cbn. rewrite Hx. reflexivity.
      + rewrite forallb_app, Hw. cbn. rewrite Hwx. reflexivity.
    - rewrite inRange_app_l.
      destruct (encoded_head x Hx Hwx) as (c & r & -> & Hc).
      unfold inRange. cbn [bytes.Compare].
      change (byteZ Byte.x00) with 0. change (byteZ Byte.xff) with 255.
      replace (byteZ c ?= 255) with Lt by (symmetry; apply Z.compare_lt_iff; lia).
      destruct (Z.compare_spec 0 (byteZ c)); try lia; try reflexivity.
      destruct r; reflexivity.
    - rewrite <- (app_nil_r (packed p)) at 1. rewrite Compare_app_l.
      destruct (encoded_head x Hx Hwx) as (c & r & -> & Hc). reflexivity. }
  split; [apply Pack_packed; assumption|]. split; [|split; [|split]].
  - unfold LexRangeKeys. rewrite Pack_packed by assumption. cbn [bind].
    rewrite !concat_app. reflexivity.
  - intros x y _ Hx Hwx Hy Hwy.
    destruct (Hone x Hx Hwx) as (Px & Rx & Sx), (Hone y Hy Hwy) as (Py & Ry & Sy).
    exists (packed p ++ encoded x), (packed p ++ encoded y). repeat split; assumption.
  - rewrite <- (app_nil_r (packed p)) at 3. rewrite inRange_app_l. reflexivity.
  - intros q Hsq Hwq Hno. exists (packed q).
    split; [apply Pack_packed; assumption|].
    destruct (inRange _ _ (packed q)) eqn:E; [|reflexivity].
    exfalso. apply Hno.
    apply inRange_extends; try (apply all_normalize_canonical; assumption).
    rewrite !packed_normalize. exact E.
Qed.

Lemma prefix_range_witness :
  forallb supported samplePrefix = true /\ forallb wfElement samplePrefix = true /\
  exists kp,
    Pack samplePrefix = Ok kp /\
    LexRangeKeys samplePrefix = Ok (kp ++ [Byte.x00], kp ++ [Byte.xff]) /\
    (forall x y : Element,
       x <> y ->
       supported x = true -> wfElement x = true ->
       supported y = true -> wfElement y = true ->
       exists kx ky,
         Pack (samplePrefix ++ [x]) = Ok kx /\ Pack (samplePrefix ++ [y]) = Ok ky /\
         inRange (kp ++ [Byte.x00]) (kp ++ [Byte.xff]) kx = true /\
         inRange (kp ++ [Byte.x00]) (kp ++ [Byte.xff]) ky = true /\
         bytes.Compare kp kx = Lt /\ bytes.Compare kp ky = Lt) /\
    inRange (kp ++ [Byte.x00]) (kp ++ [Byte.xff]) kp = false /\
    (forall q : Tuple,
       forallb supported q = true -> forallb wfElement q = true ->
       ~ strictlyExtends (map normalize q) (map normalize samplePrefix) ->
       exists kq,
         Pack q = Ok kq /\
         inRange (kp ++ [Byte.x00]) (kp ++ [Byte.xff]) kq = false).
Proof.
  assert (Hs : forallb supported samplePrefix = true) by reflexivity.
  assert (Hw : forallb wfElement samplePrefix = true) by reflexivity.
  split; [exact Hs|]. split; [exact Hw|].
  exact (prefix_range samplePrefix Hs Hw).
Defined.

(** ** The budgets of the loops suffice *)

Lemma index_finished {A : Type} (s : list A) (i : Z) : index s i <> Unfinished.
Proof.
  unfold index. destruct ((0 <=? i) && (i <? len s)); [|discriminate].
  destruct (nth_error s (Z.to_nat i)); discriminate.
Qed.

Lemma sliceFrom_finished {A : Type} (s : list A) (lo : Z) : sliceFrom s lo <> Unfinished.
Proof. unfold sliceFrom. destruct ((0 <=? lo) && (lo <=? len s)); discriminate. Qed.

Lemma slice_finished {A : Type} (s spare : list A) (lo hi : Z) :
  slice s spare lo hi <> Unfinished.
Proof.
  unfold slice.
  destruct ((0 <=? lo) && (lo <=? hi) && (hi <=? len s + len spare)); discriminate.
Qed.

Lemma copyAt_finished {A : Type} (r : list A) (off : Z) (src : list A) :
  copyAt r off src <> Unfinished.
Proof.
  unfold copyAt. pose proof (sliceFrom_finished r off).
  destruct (sliceFrom r off); cbn [bind]; congruence.
Qed.

Lemma IndexByte_from_range (b : list byte) (c : byte) (i : Z) :
  bytes.IndexByte_from b c i = -1 \/
  i <= bytes.IndexByte_from b c i < i + len b.
Proof.
  revert i. induction b as [|x b IH]; intros i; cbn [bytes.IndexByte_from].
  - left. reflexivity.
  - rewrite len_cons. pose proof (len_nonneg b).
    destruct (Byte.eqb x c); [right; lia|].
    destruct (IH (i + 1)) as [->|H']; [left; reflexivity | right; lia].
Qed.

Lemma findTerminator_loop_finished (fuel : nat) :
  forall (bp : list byte) (L : Z),
    (List.length bp < fuel)%nat -> findTerminator_loop fuel bp L <> Unfinished.
Proof.
  induction fuel as [|fuel IH]; intros bp L Hf; [lia|].
  cbn [findTerminator_loop].
  destruct (bytes.IndexByte bp Byte.x00 + 1 =? len bp); [discriminate|].
  pose proof (index_finished bp (bytes.IndexByte bp Byte.x00 + 1)).
  destruct (index bp (bytes.IndexByte bp Byte.x00 + 1)) as [c| |];
    cbn [bind]; try congruence; try discriminate.
  destruct (negb (Byte.eqb c Byte.xff)); [discriminate|].
  unfold sliceFrom.
  destruct (Z.leb_spec 0 (bytes.IndexByte bp Byte.x00 + 2));
    destruct (Z.leb_spec (bytes.IndexByte bp Byte.x00 + 2) (len bp));
    cbn [andb bind]; try discriminate.
  apply IH. rewrite length_skipn.
  destruct (IndexByte_from_range bp Byte.x00 0) as [E|E];
    fold (bytes.IndexByte bp Byte.x00) in E; unfold len in *; lia.
Qed.

Lemma decodeBytes_finished (b spare : list byte) : decodeBytes b spare <> Unfinished.
Proof.
  unfold decodeBytes. pose proof (sliceFrom_finished b 1).
  destruct (sliceFrom b 1) as [b1| |]; cbn [bind]; try congruence; try discriminate.
  pose proof (findTerminator_loop_finished (S (List.length b1)) b1 0 (Nat.lt_succ_diag_r _)).
  unfold findTerminator.
  destruct (findTerminator_loop (S (List.length b1)) b1 0) as [idx| |];
    cbn [bind]; try congruence; try discriminate.
  pose proof (slice_finished b spare 1 (idx + 1)).
  destruct (slice b spare 1 (idx + 1)); cbn [bind]; try congruence; discriminate.
Qed.

Lemma decodeString_finished (b spare : list byte) : decodeString b spare <> Unfinished.
Proof.
  unfold decodeString. pose proof (decodeBytes_finished b spare).
  destruct (decodeBytes b spare) as [[bp idx]| |]; cbn [bind]; try congruence; discriminate.
Qed.

Lemma decodeInt_finished (b spare : list byte) : decodeInt b spare <> Unfinished.
Proof.
  unfold decodeInt. pose proof (index_finished b 0).
  destruct (index b 0) as [b0| |]; cbn [bind]; try congruence; try discriminate.
  destruct (byteZ b0 =? 20); [discriminate|].
  destruct (byteZ b0 - 20 <? 0).
  - pose proof (slice_finished b spare 1 (- (byteZ b0 - 20) + 1)).
    destruct (slice b spare 1 (- (byteZ b0 - 20) + 1)) as [src| |];
      cbn [bind]; try congruence; try discriminate.
    pose proof (copyAt_finished (make 8) (8 - - (byteZ b0 - 20)) src).
    destruct (copyAt (make 8) (8 - - (byteZ b0 - 20)) src);
      cbn [bind]; try congruence; try discriminate.
    pose proof (index_finished sizeLimits (- (byteZ b0 - 20))).
    destruct (index sizeLimits (- (byteZ b0 - 20)));
      cbn [bind]; try congruence; discriminate.
  - pose proof (slice_finished b spare 1 (byteZ b0 - 20 + 1)).
    destruct (slice b spare 1 (byteZ b0 - 20 + 1)) as [src| |];
      cbn [bind]; try congruence; try discriminate.
    pose proof (copyAt_finished (make 8) (8 - (byteZ b0 - 20)) src).
    destruct (copyAt (make 8) (8 - (byteZ b0 - 20)) src);
      cbn [bind]; try congruence; discriminate.
Qed.

Lemma Unpack_loop_finished (b spare : list byte) (fuel : nat) :
  forall (t : Tuple) (i : Z),
    (0 < fuel)%nat -> len b - i < Z.of_nat fuel ->
    Unpack_loop fuel b spare t i <> Unfinished.
Proof.
  induction fuel as [|fuel IH]; intros t i H0 Hf; [lia|].
  cbn [Unpack_loop].
  destruct (Z.ltb_spec i (len b)) as [Hi|Hi]; [|discriminate].
  pose proof (index_finished b i).
  destruct (index b i) as [c| |]; cbn [bind]; try congruence; try discriminate.
  destruct (byteZ c =? 0); [apply IH; lia|].
  pose proof (sliceFrom_finished b i).
  destruct (byteZ c =? 1).
  { destruct (sliceFrom b i) as [bi| |]; cbn [bind]; try congruence; try discriminate.
    pose proof (decodeBytes_finished bi spare).
    destruct (decodeBytes bi spare) as [[el off]| |] eqn:E;
      cbn [bind]; try congruence; try discriminate.
    apply decodeBytes_offset in E. apply IH; lia. }
  destruct (byteZ c =? 2).
  { destruct (sliceFrom b i) as [bi| |]; cbn [bind]; try congruence; try discriminate.
    pose proof (decodeString_finished bi spare).
    destruct (decodeString bi spare) as [[el off]| |] eqn:E;
      cbn [bind]; try congruence; try discriminate.
    apply decodeString_offset in E. apply IH; lia. }
  destruct ((12 <=? byteZ c) && (byteZ c <=? 28)); [|discriminate].
  destruct (sliceFrom b i) as [bi| |]; cbn [bind]; try congruence; try discriminate.
  pose proof (decodeInt_finished bi spare).
  destruct (decodeInt bi spare) as [[el off]| |] eqn:E;
    cbn [bind]; try congruence; try discriminate.
  apply decodeInt_offset in E. apply IH; lia.
Qed.

(** [Unpack] comes to an end on every input: it returns or it panics. *)
Lemma Unpack_cap_finished (b spare : list byte) : Unpack_cap b spare <> Unfinished.
Proof.
  unfold Unpack_cap. apply Unpack_loop_finished; unfold len; lia.
Qed.






(** * Further properties of the code *)

(** ** The helpers of the encoder *)

(** X1.  [concat], in [tuple] and in [subspace], returns the bytes of
    its first argument followed by those of the second, for all
    arguments: the buffer it makes is filled exactly. *)
Theorem concat_appends (a b : list byte) :
  tuple.concat a b = Ok (a ++ b) /\ subspace.concat a b = Ok (a ++ b).
Proof. split; [apply concat_app | apply subspace_concat_app]. Qed.

(** X2.  For every [uint64] value, [bisectLeft] stays within
    [sizeLimits]: it returns an index [n] of at most 8, the limit at [n]
    is [2^(8n) - 1], the value is at most that limit and above every
    earlier one. *)
Theorem bisectLeft_minimal (u : Z) :
  0 <= u < 2 ^ 64 ->
  exists n : nat,
    bisectLeft u = Ok (Z.of_nat n) /\ (n <= 8)%nat /\
    index sizeLimits (Z.of_nat n) = Ok (2 ^ (8 * Z.of_nat n) - 1) /\
    minimalByteCount u n.
Proof.
  intros Hu. exists (countBelow sizeLimits u).
  destruct (countBelow_sizeLimits u Hu) as (H1 & H2 & H3).
  split; [apply bisectLeft_count, Hu|]. split; [exact H1|].
  split; [apply index_sizeLimits, H1 | split; assumption].
Qed.

Lemma bisectLeft_minimal_witness :
  0 <= 256 < 2 ^ 64 /\
  exists n : nat,
    bisectLeft 256 = Ok (Z.of_nat n) /\ (n <= 8)%nat /\
    index sizeLimits (Z.of_nat n) = Ok (2 ^ (8 * Z.of_nat n) - 1) /\
    minimalByteCount 256 n.
Proof.
  assert (H : 0 <= 256 < 2 ^ 64) by (split; [discriminate | reflexivity]).
  split; [exact H | exact (bisectLeft_minimal 256 H)].
Defined.

(** X3.  For every [int64] [i], [encodeInt] appends to the buffer, and
    leaves what the buffer held: it appends one tag byte, 0x14 plus or
    minus the byte count [n] by the sign of [i] and so between 0x0C and
    0x1C, and then [n] payload bytes, where [n] is the least count of
    bytes the magnitude fits in. *)
Theorem encodeInt_format (buf : bytes.Buffer) (i : Z) :
  - 2 ^ 63 <= i < 2 ^ 63 ->
  exists n : nat,
    (n <= 8)%nat /\ minimalByteCount (Z.abs i) n /\
    encodeInt buf i = Ok (buf ++ formatTag i n :: formatPayload i n) /\
    byteZ (formatTag i n) = 20 + Z.sgn i * Z.of_nat n /\
    12 <= byteZ (formatTag i n) <= 28 /\
    List.length (formatPayload i n) = n.
Proof.
  intros Hi. exists (intWidth i).
  destruct (intWidth_abs i Hi) as [Hn _].
  pose proof (formatTag_value i Hi) as Ht.
  split; [exact Hn|]. split; [|split; [|split; [|split]]].
  - unfold intWidth. destruct (countBelow_sizeLimits (Z.abs i)) as (_ & H2 & H3).
    + rewrite pow2_63, pow2_64 in *. lia.
    + split; assumption.
  - apply encodeInt_encodedInt, Hi.
  - exact Ht.
  - rewrite Ht. destruct (Z.sgn_spec i) as [[_ ->]|[[_ ->]|[_ ->]]]; lia.
  - unfold formatPayload. destruct (0 <=? i); apply bigEndian_length.
Qed.

Lemma encodeInt_format_witness :
  - 2 ^ 63 <= -65536 < 2 ^ 63 /\
  exists n : nat,
    (n <= 8)%nat /\ minimalByteCount (Z.abs (-65536)) n /\
    encodeInt [Byte.x00] (-65536)
    = Ok ([Byte.x00] ++ formatTag (-65536) n :: formatPayload (-65536) n) /\
    byteZ (formatTag (-65536) n) = 20 + Z.sgn (-65536) * Z.of_nat n /\
    12 <= byteZ (formatTag (-65536) n) <= 28 /\
    List.length (formatPayload (-65536) n) = n.
Proof.
  assert (H : - 2 ^ 63 <= -65536 < 2 ^ 63) by (split; [discriminate | reflexivity]).
  split; [exact H | exact (encodeInt_format [Byte.x00] (-65536) H)].
Defined.

(** X4.  [decodeInt] undoes [encodeInt] on every [int64]: on the bytes
    [encodeInt] writes, followed by any bytes and with any spare
    capacity, it returns the integer and the number of bytes written. *)
Theorem decodeInt_encodeInt (i : Z) :
  - 2 ^ 63 <= i < 2 ^ 63 ->
  exists k,
    encodeInt [] i = Ok k /\
    forall rest spare, decodeInt (k ++ rest) spare = Ok (i, len k).
Proof.
  intros Hi. exists (encodedInt i). split.
  - apply (encodeInt_encodedInt [] i Hi).
  - intros rest spare. apply decodeInt_encodedInt, Hi.
Qed.

Lemma decodeInt_encodeInt_witness :
  - 2 ^ 63 <= - 2 ^ 63 < 2 ^ 63 /\
  exists k,
    encodeInt [] (- 2 ^ 63) = Ok k /\
    forall rest spare, decodeInt (k ++ rest) spare = Ok (- 2 ^ 63, len k).
Proof.
  assert (H : - 2 ^ 63 <= - 2 ^ 63 < 2 ^ 63) by (split; [discriminate | reflexivity]).
  split; [exact H | exact (decodeInt_encodeInt (- 2 ^ 63) H)].
Defined.

(** X5.  [encodeInt] keeps the order of the integers within the bytes it
    writes: for [int64] values [i < j], the bytes written for [i] are
    below those written for [j] whatever bytes follow either. *)
Theorem encodeInt_ordered (i j : Z) (x y : list byte) :
  - 2 ^ 63 <= i < 2 ^ 63 -> - 2 ^ 63 <= j < 2 ^ 63 -> i < j ->
  exists ki kj,
    encodeInt [] i = Ok ki /\ encodeInt [] j = Ok kj /\
    bytes.Compare (ki ++ x) (kj ++ y) = Lt.
Proof.
  intros Hi Hj Hlt. exists (encodedInt i), (encodedInt j).
  split; [apply (encodeInt_encodedInt [] i Hi)|].
  split; [apply (encodeInt_encodedInt [] j Hj)|].
  apply diverges_Compare, encodedInt_lt; assumption.
Qed.

Lemma encodeInt_ordered_witness :
  - 2 ^ 63 <= -257 < 2 ^ 63 /\ - 2 ^ 63 <= -256 < 2 ^ 63 /\ -257 < -256 /\
  exists ki kj,
    encodeInt [] (-257) = Ok ki /\ encodeInt [] (-256) = Ok kj /\
    bytes.Compare (ki ++ [Byte.xff]) (kj ++ []) = Lt.
Proof.
  assert (H1 : - 2 ^ 63 <= -257 < 2 ^ 63) by (split; [discriminate | reflexivity]).
  assert (H2 : - 2 ^ 63 <= -256 < 2 ^ 63) by (split; [discriminate | reflexivity]).
  assert (H3 : -257 < -256) by reflexivity.
  split; [exact H1|]. split; [exact H2|]. split; [exact H3|].
  exact (encodeInt_ordered (-257) (-256) [Byte.xff] [] H1 H2 H3).
Defined.

Lemma escape_flat_map (s : list byte) : escape s = flat_map escapeByte s.
Proof.
  induction s as [|c s IH]; [reflexivity|].
  rewrite escape_cons_app, IH. reflexivity.
Qed.

Lemma escape_len (s : list byte) : len (escape s) = len s + countZeros s.
Proof.
  unfold countZeros. induction s as [|c s IH]; [reflexivity|].
  rewrite escape_cons. cbn [filter].
  destruct (byteZ c =? 0); rewrite !len_cons, ?IH; lia.
Qed.

(** X6.  What [encodeBytes] writes is the type code, then the value with
    every zero byte followed by 0xFF and every other byte as it is, then
    one zero byte; so it writes two bytes more than the value, and one
    more for each zero byte of the value. *)
Theorem encodeBytes_escapes (buf : bytes.Buffer) (code : byte) (b : list byte) :
  encodeBytes buf code b = buf ++ code :: flat_map escapeByte b ++ [Byte.x00] /\
  len (encodeBytes buf code b) = len buf + len b + countZeros b + 2.
Proof.
  assert (E : encodeBytes buf code b = buf ++ code :: escape b ++ [Byte.x00]).
  { unfold encodeBytes, bytes.WriteByte, bytes.Write.
    rewrite <- !app_assoc. reflexivity. }
  split.
  - rewrite E, escape_flat_map. reflexivity.
  - rewrite E, len_app, len_cons, len_app, escape_len, len_cons.
    change (@len byte []) with 0. lia.
Qed.

(** X7.  [decodeBytes] undoes [encodeBytes]: on the bytes written for a
    value, followed by nothing or by a byte other than 0xFF, it returns
    the value and the number of bytes written, whatever the type code
    and the spare capacity. *)
Theorem decodeBytes_encodeBytes (code : byte) (s rest spare : list byte) :
  tagHeaded rest ->
  decodeBytes (encodeBytes [] code s ++ rest) spare
  = Ok (s, len (encodeBytes [] code s)).
Proof.
  intros Hrest.
  assert (E : encodeBytes [] code s = code :: escape s ++ [Byte.x00]) by reflexivity.
  rewrite E. cbn [app]. rewrite <- app_assoc. cbn [app].
  rewrite decodeBytes_escape by exact Hrest.
  rewrite len_cons, len_app, len_cons. change (@len byte []) with 0.
  do 2 f_equal. lia.
Qed.

Lemma decodeBytes_encodeBytes_witness :
  tagHeaded [Byte.x15; Byte.x01] /\
  decodeBytes (encodeBytes [] Byte.x01 [Byte.x00; Byte.xff; Byte.x00]
               ++ [Byte.x15; Byte.x01]) []
  = Ok ([Byte.x00; Byte.xff; Byte.x00],
        len (encodeBytes [] Byte.x01 [Byte.x00; Byte.xff; Byte.x00])).
Proof.
  assert (H : tagHeaded [Byte.x15; Byte.x01]) by reflexivity.
  split; [exact H|].
  exact (decodeBytes_encodeBytes Byte.x01 [Byte.x00; Byte.xff; Byte.x00]
           [Byte.x15; Byte.x01] [] H).
Defined.

(** ** The end of a byte string *)

Lemma index_zero_head (bp : list byte) (c : byte) :
  index bp 0 = Ok c -> exists r, bp = c :: r.
Proof.
  destruct bp as [|d r]; [discriminate|].
  rewrite index_head. intros H. injection H as ->. exists r. reflexivity.
Qed.

Lemma findTerminator_loop_bounds (fuel : nat) :
  forall (bp : list byte) (L : Z),
    (List.length bp < fuel)%nat ->
    exists r,
      findTerminator_loop fuel bp L = Ok r /\
      L - 1 <= r <= L + len bp - 1 /\
      (r = L - 1 <-> noTerminator bp).
Proof.
  induction fuel as [|fuel IH]; intros bp L Hf; [lia|].
  cbn [findTerminator_loop]. unfold noTerminator.
  set (idx := bytes.IndexByte bp Byte.x00).
  assert (Hidx : idx = -1 \/ 0 <= idx < len bp).
  { destruct (IndexByte_from_range bp Byte.x00 0) as [E|E];
      fold (bytes.IndexByte bp Byte.x00) in E; fold idx in E; lia. }
  destruct (Z.eqb_spec (idx + 1) (len bp)) as [Hend|Hend].
  - exists (L + idx). split; [reflexivity|]. split; [lia|].
    split.
    + intros Hr. assert (idx = -1) by lia. split; [assumption|].
      assert (len bp = 0) by lia. destruct bp; [discriminate|].
      rewrite len_cons in *. pose proof (len_nonneg bp). lia.
    + intros [H _]. lia.
  - pose proof (len_nonneg bp) as Hlen.
    assert (Hin : 0 <= idx + 1 < len bp) by lia.
    destruct (index bp (idx + 1)) as [c| |] eqn:Hc.
    2:{ exfalso. unfold index in Hc.
        replace ((0 <=? idx + 1) && (idx + 1 <? len bp)) with true in Hc
          by (symmetry; apply andb_true_iff; lia).
        destruct (nth_error bp (Z.to_nat (idx + 1))) eqn:Hn; [discriminate|].
        apply nth_error_None in Hn. unfold len in *. lia. }
    2:{ exfalso. apply (index_finished _ _ Hc). }
    cbn [bind]. rewrite eqb_xff.
    destruct (Z.eqb_spec (byteZ c) 255) as [Hff|Hff]; cbn [negb].
    + change 255 with (byteZ Byte.xff) in Hff. apply byteZ_inj in Hff. subst c.
      unfold sliceFrom.
      replace ((0 <=? idx + 2) && (idx + 2 <=? len bp)) with true
        by (symmetry; apply andb_true_iff; lia).
      cbn [bind].
      destruct (IH (skipn (Z.to_nat (idx + 2)) bp) (L + idx + 2)) as (r & Hr & Hb & _).
      { rewrite length_skipn. unfold len in *. lia. }
      exists r. split; [exact Hr|].
      assert (Hl : len (skipn (Z.to_nat (idx + 2)) bp) = len bp - (idx + 2))
        by (unfold len in *; rewrite length_skipn; lia).
      rewrite Hl in Hb. split; [lia|]. split.
      * intros E. lia.
      * intros [H1 H2]. exfalso. apply H2.
        replace 0 with (idx + 1) by lia. exact Hc.
    + exists (L + idx). split; [reflexivity|]. split; [lia|]. split.
      * intros E. assert (Hi : idx = -1) by lia. split; [exact Hi|].
        rewrite Hi in Hc. cbn in Hc. rewrite Hc. intros H. injection H as ->.
        apply Hff. reflexivity.
      * intros [H _]. lia.
Qed.

(** X8.  [findTerminator] returns on every input, without indexing out
    of range: the result lies between -1 and the last index of the
    input, and it is -1 exactly when the input holds no zero byte and
    does not start with 0xFF. *)
Theorem findTerminator_bounds (b : list byte) :
  exists idx,
    findTerminator b = Ok idx /\
    -1 <= idx <= len b - 1 /\
    (idx = -1 <-> noTerminator b).
Proof.
  unfold findTerminator.
  destruct (findTerminator_loop_bounds (S (List.length b)) b 0 (Nat.lt_succ_diag_r _))
    as (r & Hr & Hb & Hn).
  exists r. split; [exact Hr|]. split; [lia | exact Hn].
Qed.

(** X9.  On a byte string element, [decodeBytes] panics, on the slice
    expression, exactly when the bytes after the type code hold no zero
    byte and do not start with 0xFF; in every other case it returns, and
    has consumed at least two bytes and at most the bytes it was given. *)
Theorem decodeBytes_outcome (c : byte) (p spare : list byte) :
  (noTerminator p -> decodeBytes (c :: p) spare = Panic SliceBoundsOutOfRange) /\
  (~ noTerminator p ->
   exists el off,
     decodeBytes (c :: p) spare = Ok (el, off) /\ 2 <= off <= len (c :: p)).
Proof.
  unfold decodeBytes.
  change (sliceFrom (c :: p) 1) with (sliceFrom ([c] ++ p) (len [c])).
  rewrite sliceFrom_app. cbn [bind app].
  destruct (findTerminator_bounds p) as (idx & -> & Hb & Hn). cbn [bind].
  split.
  - intros H. apply Hn in H. subst idx. reflexivity.
  - intros H. assert (Hi : 0 <= idx) by (destruct (Z.eq_dec idx (-1)); [tauto | lia]).
    unfold slice. rewrite len_cons. pose proof (len_nonneg spare).
    replace ((0 <=? 1) && (1 <=? idx + 1) && (idx + 1 <=? 1 + len p + len spare))
      with true by (symmetry; rewrite !andb_true_iff; lia).
    cbn [bind]. eexists _, _. split; [reflexivity | lia].
Qed.

Lemma decodeBytes_outcome_witness :
  noTerminator [Byte.x61; Byte.x62] /\
  decodeBytes (Byte.x01 :: [Byte.x61; Byte.x62]) [] = Panic SliceBoundsOutOfRange /\
  ~ noTerminator [Byte.xff; Byte.x62] /\
  exists el off,
    decodeBytes (Byte.x01 :: [Byte.xff; Byte.x62]) [] = Ok (el, off) /\
    2 <= off <= len (Byte.x01 :: [Byte.xff; Byte.x62]).
Proof.
  assert (H1 : noTerminator [Byte.x61; Byte.x62])
    by (split; [reflexivity | discriminate]).
  assert (H2 : ~ noTerminator [Byte.xff; Byte.x62])
    by (intros [_ H]; apply H; reflexivity).
  split; [exact H1|].
  split; [exact (proj1 (decodeBytes_outcome Byte.x01 [Byte.x61; Byte.x62] []) H1)|].
  split; [exact H2|].
  exact (proj2 (decodeBytes_outcome Byte.x01 [Byte.xff; Byte.x62] []) H2).
Defined.

(** ** The outcomes of Pack *)








(** X11.  [Pack] is injective up to type normalization: two tuples of
    supported elements with one packed form have the same normalised
    elements; tuples of nil, [[]byte], [string] and [int64] elements
    with one packed form are equal. *)
Theorem Pack_injective (A B : Tuple) :
  forallb supported A = true -> forallb wfElement A = true ->
  forallb supported B = true -> forallb wfElement B = true ->
  Pack A = Pack B ->
  map normalize A = map normalize B /\
  (forallb canonical A = true -> forallb canonical B = true -> A = B).
Proof.
  intros HsA HwA HsB HwB E.
  rewrite !Pack_packed in E by assumption. injection E as E.
  assert (H : map normalize A = map normalize B).
  { pose proof (Unpack_cap_packed A [] HsA HwA) as HA.
    pose proof (Unpack_cap_packed B [] HsB HwB) as HB.
    rewrite E in HA. rewrite HA in HB. injection HB as HB. exact HB. }
  split; [exact H|]. intros HA HB.
  rewrite !map_normalize_id in H by assumption. exact H.
Qed.

Lemma Pack_injective_witness :
  forallb supported [EInt 42; EKeyConvertible user] = true /\
  forallb wfElement [EInt 42; EKeyConvertible user] = true /\
  forallb supported [EUint32 42; EBytes user] = true /\
  forallb wfElement [EUint32 42; EBytes user] = true /\
  Pack [EInt 42; EKeyConvertible user] = Pack [EUint32 42; EBytes user] /\
  map normalize [EInt 42; EKeyConvertible user]
  = map normalize [EUint32 42; EBytes user] /\
  (forallb canonical [EInt 42; EKeyConvertible user] = true ->
   forallb canonical [EUint32 42; EBytes user] = true ->
   [EInt 42; EKeyConvertible user] = [EUint32 42; EBytes user]).
Proof.
  repeat (split; [reflexivity|]).
  apply (Pack_injective [EInt 42; EKeyConvertible user] [EUint32 42; EBytes user]);
    reflexivity.
Defined.

(** ** What Unpack returns *)

Lemma index_In {A : Type} (s : list A) (i : Z) (x : A) : index s i = Ok x -> In x s.
Proof.
  unfold index. destruct ((0 <=? i) && (i <? len s)); [|discriminate].
  destruct (nth_error s (Z.to_nat i)) eqn:E; [|discriminate].
  intros H. injection H as <-. apply (nth_error_In _ _ E).
Qed.

Lemma Unpack_loop_error_shape (fuel : nat) (b spare : list byte) :
  forall (t : Tuple) (i : Z) (r : Tuple) (e : error),
    Unpack_loop fuel b spare t i = Ok (r, Some e) ->
    r = [] /\
    exists c, e = Errorf_unknown_typecode c /\ occursIn c b /\ isTypecode c = false.
Proof.
  induction fuel as [|fuel IH]; intros t i r e; cbn [Unpack_loop]; [discriminate|].
  destruct (i <? len b); [|discriminate].
  destruct (index b i) as [c| |] eqn:Hc; cbn [bind]; try discriminate.
  destruct (byteZ c =? 0) eqn:H0; [apply IH|].
  destruct (byteZ c =? 1) eqn:H1.
  { destruct (sliceFrom b i) as [bi| |]; cbn [bind]; try discriminate.
    destruct (decodeBytes bi spare) as [[el off]| |]; cbn [bind]; try discriminate.
    apply IH. }
  destruct (byteZ c =? 2) eqn:H2.
  { destruct (sliceFrom b i) as [bi| |]; cbn [bind]; try discriminate.
    destruct (decodeString bi spare) as [[el off]| |]; cbn [bind]; try discriminate.
    apply IH. }
  destruct ((12 <=? byteZ c) && (byteZ c <=? 28)) eqn:Hr.
  { destruct (sliceFrom b i) as [bi| |]; cbn [bind]; try discriminate.
    destruct (decodeInt bi spare) as [[el off]| |]; cbn [bind]; try discriminate.
    apply IH. }
  intros H. injection H as <- <-. split; [reflexivity|].
  exists c. split; [reflexivity|]. split; [apply (index_In _ _ _ Hc)|].
  unfold isTypecode. rewrite H0, H1, H2, Hr. reflexivity.
Qed.

(** X12.  Whenever [Unpack] returns an error, it returns the nil tuple
    with it, and the error is the one for an unknown type code, naming a
    byte that occurs in the input and is none of 0x00, 0x01, 0x02,
    0x0C..0x1C. *)
Theorem Unpack_error_shape (b spare : list byte) (t : Tuple) (e : error) :
  Unpack_cap b spare = Ok (t, Some e) ->
  t = [] /\
  exists c, e = Errorf_unknown_typecode c /\ occursIn c b /\ isTypecode c = false.
Proof. apply Unpack_loop_error_shape. Qed.

Lemma Unpack_error_shape_witness :
  Unpack_cap sampleInput [] = Ok ([], Some (Errorf_unknown_typecode Byte.x03)) /\
  @nil Element = [] /\
  exists c,
    Errorf_unknown_typecode Byte.x03 = Errorf_unknown_typecode c /\
    occursIn c sampleInput /\ isTypecode c = false.
Proof.
  assert (H : Unpack_cap sampleInput [] = Ok ([], Some (Errorf_unknown_typecode Byte.x03)))
    by reflexivity.
  split; [exact H|].
  exact (Unpack_error_shape sampleInput [] [] (Errorf_unknown_typecode Byte.x03) H).
Defined.

Lemma decodeInt_range (b spare : list byte) (el off : Z) :
  decodeInt b spare = Ok (el, off) -> is_int64 el = true.
Proof.
  unfold decodeInt.
  destruct (index b 0) as [b0| |]; cbn [bind]; try discriminate.
  destruct (byteZ b0 =? 20); [intros H; injection H as <- _; reflexivity|].
  destruct (byteZ b0 - 20 <? 0).
  - destruct (slice b spare 1 (- (byteZ b0 - 20) + 1)); cbn [bind]; try discriminate.
    destruct (copyAt (make 8) (8 - - (byteZ b0 - 20)) a); cbn [bind]; try discriminate.
    destruct (index sizeLimits (- (byteZ b0 - 20))); cbn [bind]; try discriminate.
    intros H. injection H as <- _. apply is_int64_int64.
  - destruct (slice b spare 1 (byteZ b0 - 20 + 1)); cbn [bind]; try discriminate.
    destruct (copyAt (make 8) (8 - (byteZ b0 - 20)) a); cbn [bind]; try discriminate.
    intros H. injection H as <- _. apply is_int64_int64.
Qed.

Lemma forallb_canonical_snoc (t : Tuple) (e : Element) :
  forallb canonical t = true -> canonical e = true ->
  forallb canonical (t ++ [e]) = true.
Proof.
  intros Ht He. rewrite forallb_app, Ht. cbn [forallb]. rewrite He. reflexivity.
Qed.

Lemma Unpack_loop_success (fuel : nat) (b spare : list byte) :
  forall (t : Tuple) (i : Z) (r : Tuple),
    forallb canonical t = true -> len t <= i -> len t <= len b ->
    Unpack_loop fuel b spare t i = Ok (r, None) ->
    forallb canonical r = true /\ len r <= len b.
Proof.
  induction fuel as [|fuel IH]; intros t i r Ht Hi Hb; cbn [Unpack_loop]; [discriminate|].
  destruct (Z.ltb_spec i (len b)) as [Hlt|Hge].
  2:{ intros H. injection H as <-. auto. }
  assert (Hl : forall e, len (t ++ [e]) = len t + 1)
    by (intros e; rewrite len_app, len_cons; reflexivity).
  destruct (index b i) as [c| |]; cbn [bind]; try discriminate.
  destruct (byteZ c =? 0).
  { apply IH; rewrite ?Hl; try lia. apply forallb_canonical_snoc; auto. }
  destruct (byteZ c =? 1).
  { destruct (sliceFrom b i) as [bi| |]; cbn [bind]; try discriminate.
    destruct (decodeBytes bi spare) as [[el off]| |] eqn:E; cbn [bind]; try discriminate.
    apply decodeBytes_offset in E.
    apply IH; rewrite ?Hl; try lia. apply forallb_canonical_snoc; auto. }
  destruct (byteZ c =? 2).
  { destruct (sliceFrom b i) as [bi| |]; cbn [bind]; try discriminate.
    destruct (decodeString bi spare) as [[el off]| |] eqn:E; cbn [bind]; try discriminate.
    apply decodeString_offset in E.
    apply IH; rewrite ?Hl; try lia. apply forallb_canonical_snoc; auto. }
  destruct ((12 <=? byteZ c) && (byteZ c <=? 28)); [|discriminate].
  destruct (sliceFrom b i) as [bi| |]; cbn [bind]; try discriminate.
  destruct (decodeInt bi spare) as [[el off]| |] eqn:E; cbn [bind]; try discriminate.
  pose proof (decodeInt_range _ _ _ _ E) as Hr. apply decodeInt_offset in E.
  apply IH; rewrite ?Hl; try lia. apply forallb_canonical_snoc; auto.
Qed.

(** X13.  Whenever [Unpack] returns a tuple without error, every element
    of it is nil, a [[]byte], a [string] or an [int64] within range;
    there are at most as many elements as input bytes; and [Pack]
    returns on that tuple. *)
Theorem Unpack_success_shape (b spare : list byte) (t : Tuple) :
  Unpack_cap b spare = Ok (t, None) ->
  forallb canonical t = true /\ len t <= len b /\ exists k, Pack t = Ok k.
Proof.
  intros H. apply Unpack_loop_success in H;
    [|reflexivity | reflexivity | apply len_nonneg].
  destruct H as [Hc Hl]. split; [exact Hc|]. split; [exact Hl|].
  destruct (canonical_all_supported t Hc) as [Hs Hw].
  exists (packed t). apply Pack_packed; assumption.
Qed.

Lemma Unpack_success_shape_witness :
  Unpack_cap truncatedBytes [] = Ok ([EBytes []], None) /\
  forallb canonical [EBytes []] = true /\
  len [EBytes []] <= len truncatedBytes /\
  exists k, Pack [EBytes []] = Ok k.
Proof.
  assert (H : Unpack_cap truncatedBytes [] = Ok ([EBytes []], None)) by reflexivity.
  split; [exact H|].
  exact (Unpack_success_shape truncatedBytes [] [EBytes []] H).
Defined.

(** ** Capacity *)

Lemma slice_spare {A : Type} (s spare : list A) (lo hi : Z) (x : list A) :
  slice s [] lo hi = Ok x -> slice s spare lo hi = Ok x.
Proof.
  unfold slice. change (@len A []) with 0. pose proof (len_nonneg spare).
  destruct ((0 <=? lo) && (lo <=? hi) && (hi <=? len s + 0)) eqn:E; [|discriminate].
  apply andb_true_iff in E. destruct E as [E E3].
  apply andb_true_iff in E. destruct E as [E1 E2].
  replace ((0 <=? lo) && (lo <=? hi) && (hi <=? len s + len spare)) with true
    by (symmetry; rewrite !andb_true_iff; lia).
  intros Hx. injection Hx as <-. f_equal.
  rewrite app_nil_r, skipn_app, firstn_app, length_skipn.
  unfold len in *.
  replace (Z.to_nat (hi - lo) - (List.length s - Z.to_nat lo))%nat with O by lia.
  cbn [firstn]. apply app_nil_r.
Qed.

Lemma decodeBytes_spare (b spare : list byte) (r : list byte * Z) :
  decodeBytes b [] = Ok r -> decodeBytes b spare = Ok r.
Proof.
  unfold decodeBytes.
  destruct (sliceFrom b 1) as [b1| |]; cbn [bind]; try discriminate.
  destruct (findTerminator b1) as [idx| |]; cbn [bind]; try discriminate.
  destruct (slice b [] 1 (idx + 1)) as [x| |] eqn:E; cbn [bind]; try discriminate.
  rewrite (slice_spare _ spare _ _ _ E). auto.
Qed.

Lemma decodeString_spare (b spare : list byte) (r : list byte * Z) :
  decodeString b [] = Ok r -> decodeString b spare = Ok r.
Proof.
  unfold decodeString.
  destruct (decodeBytes b []) as [[bp idx]| |] eqn:E; cbn [bind]; try discriminate.
  rewrite (decodeBytes_spare _ spare _ E). auto.
Qed.

Lemma decodeInt_spare (b spare : list byte) (r : Z * Z) :
  decodeInt b [] = Ok r -> decodeInt b spare = Ok r.
Proof.
  unfold decodeInt.
  destruct (index b 0) as [b0| |]; cbn [bind]; try discriminate.
  destruct (byteZ b0 =? 20); [auto|].
  destruct (byteZ b0 - 20 <? 0).
  - destruct (slice b [] 1 (- (byteZ b0 - 20) + 1)) as [x| |] eqn:E;
      cbn [bind]; try discriminate.
    rewrite (slice_spare _ spare _ _ _ E). auto.
  - destruct (slice b [] 1 (byteZ b0 - 20 + 1)) as [x| |] eqn:E;
      cbn [bind]; try discriminate.
    rewrite (slice_spare _ spare _ _ _ E). auto.
Qed.

Lemma Unpack_loop_spare (fuel : nat) (b spare : list byte) :
  forall (t : Tuple) (i : Z) (r : Tuple * option error),
    Unpack_loop fuel b [] t i = Ok r -> Unpack_loop fuel b spare t i = Ok r.
Proof.
  induction fuel as [|fuel IH]; intros t i r; cbn [Unpack_loop]; [discriminate|].
  destruct (i <? len b); [|auto].
  destruct (index b i) as [c| |]; cbn [bind]; try discriminate.
  destruct (byteZ c =? 0); [apply IH|].
  destruct (byteZ c =? 1).
  { destruct (sliceFrom b i) as [bi| |]; cbn [bind]; try discriminate.
    destruct (decodeBytes bi []) as [[el off]| |] eqn:E; cbn [bind]; try discriminate.
    rewrite (decodeBytes_spare _ spare _ E). cbn [bind]. apply IH. }
  destruct (byteZ c =? 2).
  { destruct (sliceFrom b i) as [bi| |]; cbn [bind]; try discriminate.
    destruct (decodeString bi []) as [[el off]| |] eqn:E; cbn [bind]; try discriminate.
    rewrite (decodeString_spare _ spare _ E). cbn [bind]. apply IH. }
  destruct ((12 <=? byteZ c) && (byteZ c <=? 28)); [|auto].
  destruct (sliceFrom b i) as [bi| |]; cbn [bind]; try discriminate.
  destruct (decodeInt bi []) as [[el off]| |] eqn:E; cbn [bind]; try discriminate.
  rewrite (decodeInt_spare _ spare _ E). cbn [bind]. apply IH.
Qed.

(** X14.  What [Unpack] returns on a slice whose capacity is its length,
    a tuple or an error, it returns on the same bytes in a slice of any
    larger capacity: the bytes past the length are read only where the
    shorter slice makes [Unpack] panic. *)
Theorem Unpack_capacity (b spare : list byte) (r : Tuple * option error) :
  Unpack b = Ok r -> Unpack_cap b spare = Ok r.
Proof. apply Unpack_loop_spare. Qed.

Lemma Unpack_capacity_witness :
  Unpack sampleInput = Ok ([], Some (Errorf_unknown_typecode Byte.x03)) /\
  Unpack_cap sampleInput [Byte.x01; Byte.xff]
  = Ok ([], Some (Errorf_unknown_typecode Byte.x03)).
Proof.
  assert (H : Unpack sampleInput = Ok ([], Some (Errorf_unknown_typecode Byte.x03)))
    by reflexivity.
  split; [exact H|].
  exact (Unpack_capacity sampleInput [Byte.x01; Byte.xff] _ H).
Defined.

(** ** A terminator cut off *)

Lemma escape_app (s s' : list byte) : escape (s ++ s') = escape s ++ escape s'.
Proof. rewrite !escape_flat_map. apply flat_map_app. Qed.

Lemma unescape_escape_zero (s : list byte) :
  bytes.Replace (escape s ++ [Byte.x00]) [Byte.x00; Byte.xff] [Byte.x00]
  = s ++ [Byte.x00].
Proof.
  unfold bytes.Replace. induction s as [|c s IH]; [reflexivity|].
  rewrite escape_cons. destruct (byteZ c =? 0) eqn:E.
  - apply Z.eqb_eq in E. change 0 with (byteZ Byte.x00) in E.
    apply byteZ_inj in E. subst c.
    cbn [app]. simpl bytes.Replace_skip.
    rewrite !HasPrefix_cons, HasPrefix_nil. simpl.
    rewrite IH. reflexivity.
  - cbn [app]. simpl bytes.Replace_skip.
    rewrite (HasPrefix_cons c Byte.x00), eqb_x00, E. simpl andb. cbv iota.
    f_equal. exact IH.
Qed.

Lemma findTerminator_loop_continue (fuel : nat) (u r : list byte) (L : Z) :
  zeroFree u ->
  findTerminator_loop (S fuel) (u ++ Byte.x00 :: Byte.xff :: r) L
  = findTerminator_loop fuel r (L + len u + 2).
Proof.
  intros Hu. cbn [findTerminator_loop].
  unfold bytes.IndexByte. rewrite IndexByte_from_zero by exact Hu.
  rewrite len_app, !len_cons. pose proof (len_nonneg r).
  replace (0 + len u + 1 =? len u + (1 + (1 + len r))) with false
    by (symmetry; apply Z.eqb_neq; lia).
  replace (0 + len u + 1) with (len (u ++ [Byte.x00]))
    by (rewrite len_app, len_cons; change (@len byte []) with 0; lia).
  replace (u ++ Byte.x00 :: Byte.xff :: r) with ((u ++ [Byte.x00]) ++ Byte.xff :: r)
    by (rewrite <- app_assoc; reflexivity).
  rewrite index_app_head. cbn [bind].
  change (negb (Byte.eqb Byte.xff Byte.xff)) with false. cbv iota.
  replace ((u ++ [Byte.x00]) ++ Byte.xff :: r) with ((u ++ [Byte.x00; Byte.xff]) ++ r)
    by (rewrite <- !app_assoc; reflexivity).
  replace (0 + len u + 2) with (len (u ++ [Byte.x00; Byte.xff])).
  2:{ rewrite !len_app, !len_cons. change (@len byte []) with 0. lia. }
  rewrite sliceFrom_app. cbn [bind]. rewrite Z.add_0_l. reflexivity.
Qed.

Lemma findTerminator_loop_open (s : list byte) :
  forall (u : list byte) (fuel : nat) (L : Z),
    zeroFree u -> (List.length s + 1 < fuel)%nat ->
    findTerminator_loop fuel (u ++ escape s ++ [Byte.x00; Byte.xff]) L
    = Ok (L + len u + len (escape s) + 1).
Proof.
  induction s as [|c s IH]; intros u fuel L Hu Hfuel.
  - destruct fuel as [|[|fuel]]; try (simpl in Hfuel; lia).
    rewrite escape_nil. cbn [app].
    rewrite findTerminator_loop_continue by exact Hu.
    cbn [findTerminator_loop bytes.IndexByte bytes.IndexByte_from].
    change (-1 + 1 =? len (@nil byte)) with true. cbv iota.
    change (@len byte []) with 0. f_equal. lia.
  - rewrite escape_cons. destruct (byteZ c =? 0) eqn:E.
    + destruct fuel as [|fuel]; [simpl in Hfuel; lia|].
      simpl in Hfuel. cbn [app].
      rewrite findTerminator_loop_continue by exact Hu.
      rewrite (IH [] fuel _ (Forall_nil _)) by lia.
      rewrite !len_cons. change (@len byte []) with 0. f_equal. lia.
    + replace (u ++ (c :: escape s) ++ [Byte.x00; Byte.xff])
        with ((u ++ [c]) ++ escape s ++ [Byte.x00; Byte.xff])
        by (rewrite <- !app_assoc; reflexivity).
      rewrite IH.
      * rewrite len_app, !len_cons. change (@len byte []) with 0. f_equal. lia.
      * apply Forall_app. split; [exact Hu|].
        constructor; [apply Z.eqb_neq, E | constructor].
      * simpl in Hfuel. lia.
Qed.

Lemma decodeBytes_open (code : byte) (s spare : list byte) :
  decodeBytes (code :: escape s ++ [Byte.x00; Byte.xff]) spare
  = Ok (s ++ [Byte.x00], len (escape s) + 3).
Proof.
  unfold decodeBytes.
  change (sliceFrom (code :: escape s ++ [Byte.x00; Byte.xff]) 1)
    with (sliceFrom ([code] ++ escape s ++ [Byte.x00; Byte.xff]) (len [code])).
  rewrite sliceFrom_app. cbn [bind]. unfold findTerminator.
  rewrite (findTerminator_loop_open s [] _ 0 (Forall_nil _)).
  2:{ rewrite length_app. pose proof (escape_length s). simpl. lia. }
  cbn [bind]. change (@len byte []) with 0.
  replace (code :: escape s ++ [Byte.x00; Byte.xff])
    with ([code] ++ (escape s ++ [Byte.x00]) ++ [Byte.xff])
    by (cbn [app]; rewrite <- app_assoc; reflexivity).
  change 1 with (len [code]) at 1.
  rewrite slice_middle.
  2:{ rewrite len_app, !len_cons. change (@len byte []) with 0. lia. }
  cbn [bind]. rewrite unescape_escape_zero. do 2 f_equal. lia.
Qed.

(** X15.  A terminator cut off can go unnoticed: for a byte string that
    ends in a zero byte, the packed form without its last byte, the
    terminator, is unpacked without error, to that same byte string. *)
Theorem Unpack_missing_terminator (s spare : list byte) :
  exists k,
    Pack [EBytes (s ++ [Byte.x00])] = Ok (k ++ [Byte.x00]) /\
    Unpack_cap k spare = Ok ([EBytes (s ++ [Byte.x00])], None).
Proof.
  exists (Byte.x01 :: escape s ++ [Byte.x00; Byte.xff]). split.
  - rewrite Pack_packed by reflexivity.
    unfold packed. cbn [flat_map encoded]. rewrite app_nil_r, escape_app.
    change (escape [Byte.x00]) with [Byte.x00; Byte.xff].
    cbn [app]. rewrite <- app_assoc. reflexivity.
  - unfold Unpack_cap. cbn [List.length].
    pose proof (Unpack_loop_at (S (List.length (escape s ++ [Byte.x00; Byte.xff]))) []
                  (escape s ++ [Byte.x00; Byte.xff]) spare Byte.x01 []) as H.
    cbn [app] in H. change (@len byte []) with 0 in H. rewrite H. clear H.
    cbv zeta. change (byteZ Byte.x01) with 1. cbn [Z.eqb Pos.eqb].
    rewrite decodeBytes_open. cbn [bind app].
    cbn [Unpack_loop].
    replace (0 + (len (escape s) + 3) <? len (Byte.x01 :: escape s ++ [Byte.x00; Byte.xff]))
      with false; [reflexivity|].
    symmetry. apply Z.ltb_ge.
    rewrite len_cons, len_app, !len_cons. change (@len byte []) with 0. lia.
Qed.

(** ** Subspaces, further *)

Lemma subspace_Pack_packed (s : subspace.subspace) (t : Tuple) :
  forallb supported t = true -> forallb wfElement t = true ->
  subspace.Pack s t = Ok (subspace.b s ++ packed t).
Proof.
  intros Hs Hw. unfold subspace.Pack. rewrite Pack_packed by assumption.
  cbn [bind]. apply subspace_concat_app.
Qed.

Lemma subspace_Unpack_prefixed (s : subspace.subspace) (rest spare : list byte) :
  subspace.Unpack_cap s (subspace.b s ++ rest) spare = tuple.Unpack_cap rest spare.
Proof.
  unfold subspace.Unpack_cap.
  replace (bytes.HasPrefix (subspace.b s ++ rest) (subspace.b s)) with true
    by (symmetry; apply HasPrefix_spec; exists rest; reflexivity).
  cbn [negb]. rewrite sliceFrom_app. reflexivity.
Qed.

(** X16.  Round trip through a subspace: for a tuple of supported
    elements, [Pack] of the subspace returns the prefix followed by the
    packed tuple; the subspace contains that key, and its [Unpack]
    returns the normalised tuple, with the prefix gone. *)
Theorem subspace_roundtrip (s : subspace.subspace) (t : Tuple) (spare : list byte) :
  forallb supported t = true -> forallb wfElement t = true ->
  exists kp,
    tuple.Pack t = Ok kp /\
    subspace.Pack s t = Ok (subspace.Bytes s ++ kp) /\
    subspace.Contains s (subspace.Bytes s ++ kp) = true /\
    subspace.Unpack_cap s (subspace.Bytes s ++ kp) spare = Ok (map normalize t, None).
Proof.
  intros Hs Hw. exists (packed t). unfold subspace.Bytes.
  split; [apply Pack_packed; assumption|].
  split; [apply subspace_Pack_packed; assumption|].
  split.
  - apply HasPrefix_spec. exists (packed t). reflexivity.
  - rewrite subspace_Unpack_prefixed. apply Unpack_cap_packed; assumption.
Qed.

Lemma subspace_roundtrip_witness :
  forallb supported sampleTuple = true /\ forallb wfElement sampleTuple = true /\
  exists kp,
    tuple.Pack sampleTuple = Ok kp /\
    subspace.Pack sampleSubspace sampleTuple = Ok (subspace.Bytes sampleSubspace ++ kp) /\
    subspace.Contains sampleSubspace (subspace.Bytes sampleSubspace ++ kp) = true /\
    subspace.Unpack_cap sampleSubspace (subspace.Bytes sampleSubspace ++ kp) []
    = Ok (map normalize sampleTuple, None).
Proof.
  split; [reflexivity|]. split; [reflexivity|].
  apply (subspace_roundtrip sampleSubspace sampleTuple []); reflexivity.
Defined.

(** X17.  Subspaces nest as tuples concatenate: for tuples [a], [c] and
    [t] of supported elements, extending a subspace by [a] and then by
    [c] gives the subspace extended by [a ++ c]; a tuple [t] packed
    under the subspace extended by [a] is [a ++ t] packed under the
    subspace itself, so the subspace contains that key and unpacks it to
    the normalised [a ++ t]. *)
Theorem Sub_composes (s : subspace.subspace) (a c t : Tuple) (spare : list byte) :
  forallb supported a = true -> forallb wfElement a = true ->
  forallb supported c = true -> forallb wfElement c = true ->
  forallb supported t = true -> forallb wfElement t = true ->
  exists sa sac k,
    subspace.Sub_of s a = Ok sa /\
    subspace.Sub_of sa c = Ok sac /\
    subspace.Sub_of s (a ++ c) = Ok sac /\
    subspace.Pack sa t = Ok k /\
    subspace.Pack s (a ++ t) = Ok k /\
    subspace.Contains s k = true /\
    subspace.Unpack_cap s k spare = Ok (map normalize (a ++ t), None).
Proof.
  intros Hsa Hwa Hsc Hwc Hst Hwt.
  assert (Hsub : forall (s0 : subspace.subspace) (x : Tuple),
             forallb supported x = true -> forallb wfElement x = true ->
             subspace.Sub_of s0 x = Ok {| subspace.b := subspace.b s0 ++ packed x |}).
  { intros s0 x Hx Hwx. unfold subspace.Sub_of, subspace.Bytes.
    rewrite Pack_packed by assumption. cbn [bind].
    rewrite subspace_concat_app. reflexivity. }
  assert (Hsat : forallb supported (a ++ t) = true)
    by (rewrite forallb_app, Hsa, Hst; reflexivity).
  assert (Hwat : forallb wfElement (a ++ t) = true)
    by (rewrite forallb_app, Hwa, Hwt; reflexivity).
  exists {| subspace.b := subspace.b s ++ packed a |},
         {| subspace.b := subspace.b s ++ packed (a ++ c) |},
         (subspace.b s ++ packed (a ++ t)).
  split; [apply Hsub; assumption|].
  split; [rewrite Hsub by assumption; cbn [subspace.b];
          rewrite packed_app, app_assoc; reflexivity|].
  split; [apply Hsub; rewrite forallb_app; [rewrite Hsa, Hsc | rewrite Hwa, Hwc]; reflexivity|].
  split; [rewrite subspace_Pack_packed by assumption; cbn [subspace.b];
          rewrite packed_app, app_assoc; reflexivity|].
  split; [apply subspace_Pack_packed; assumption|].
  split.
  - apply HasPrefix_spec. exists (packed (a ++ t)). reflexivity.
  - rewrite subspace_Unpack_prefixed. apply Unpack_cap_packed; assumption.
Qed.

Lemma Sub_composes_witness :
  forallb supported sampleA = true /\ forallb wfElement sampleA = true /\
  forallb supported sampleB = true /\ forallb wfElement sampleB = true /\
  forallb supported sampleTuple = true /\ forallb wfElement sampleTuple = true /\
  exists sa sac k,
    subspace.Sub_of sampleSubspace sampleA = Ok sa /\
    subspace.Sub_of sa sampleB = Ok sac /\
    subspace.Sub_of sampleSubspace (sampleA ++ sampleB) = Ok sac /\
    subspace.Pack sa sampleTuple = Ok k /\
    subspace.Pack sampleSubspace (sampleA ++ sampleTuple) = Ok k /\
    subspace.Contains sampleSubspace k = true /\
    subspace.Unpack_cap sampleSubspace k []
    = Ok (map normalize (sampleA ++ sampleTuple), None).
Proof.
  repeat (split; [reflexivity|]).
  apply (Sub_composes sampleSubspace sampleA sampleB sampleTuple []); reflexivity.
Defined.

Lemma inRange_prefix (p k : list byte) :
  inRange (p ++ [Byte.x00]) (p ++ [Byte.xff]) k = true -> exists r, k = p ++ r.
Proof.
  revert k. induction p as [|c p IH]; intros k H.
  - exists k. reflexivity.
  - destruct k as [|d k]; [discriminate|].
    unfold inRange in H. cbn [app bytes.Compare] in H.
    rewrite (Z.compare_antisym (byteZ c) (byteZ d)) in H.
    destruct (Z.compare_spec (byteZ c) (byteZ d)) as [E|L|G];
      cbn [CompOpp] in H; try discriminate.
    apply byteZ_inj in E. subst d.
    destruct (IH k H) as [r ->]. exists r. reflexivity.
Qed.

Lemma inRange_typecode (c : byte) (r : list byte) :
  0 <= byteZ c <= 28 -> inRange [Byte.x00] [Byte.xff] (c :: r) = true.
Proof.
  intros Hc. unfold inRange. cbn [bytes.Compare].
  change (byteZ Byte.x00) with 0. change (byteZ Byte.xff) with 255.
  replace (byteZ c ?= 255) with Lt by (symmetry; apply Z.compare_lt_iff; lia).
  destruct (Z.compare_spec 0 (byteZ c)); try lia; try reflexivity.
  destruct r; reflexivity.
Qed.

(** X18.  The range of a subspace is its prefix followed by 0x00 and by
    0xFF.  Every key in that range, whatever its bytes, is contained in
    the subspace; the prefix itself is not in the range; and every key
    packed under the subspace from a non-empty tuple of supported
    elements is. *)
Theorem subspace_range (s : subspace.subspace) :
  subspace.LexRangeKeys s
  = Ok (subspace.b s ++ [Byte.x00], subspace.b s ++ [Byte.xff]) /\
  (forall k : lex.Key,
     inRange (subspace.b s ++ [Byte.x00]) (subspace.b s ++ [Byte.xff]) k = true ->
     subspace.Contains s k = true) /\
  inRange (subspace.b s ++ [Byte.x00]) (subspace.b s ++ [Byte.xff]) (subspace.LexKey s)
  = false /\
  (forall (t : Tuple) (k : lex.Key),
     forallb supported t = true -> forallb wfElement t = true -> t <> [] ->
     subspace.Pack s t = Ok k ->
     inRange (subspace.b s ++ [Byte.x00]) (subspace.b s ++ [Byte.xff]) k = true).
Proof.
  split; [|split; [|split]].
  - unfold subspace.LexRangeKeys. rewrite !subspace_concat_app. reflexivity.
  - intros k H. apply HasPrefix_spec, inRange_prefix, H.
  - unfold subspace.LexKey.
    rewrite <- (app_nil_r (subspace.b s)) at 3. rewrite inRange_app_l. reflexivity.
  - intros t k Hs Hw Hne Hp.
    rewrite subspace_Pack_packed in Hp by assumption. injection Hp as <-.
    rewrite inRange_app_l.
    destruct t as [|e t]; [congruence|].
    cbn [forallb] in Hs, Hw. apply andb_true_iff in Hs, Hw.
    destruct (encoded_head e (proj1 Hs) (proj1 Hw)) as (c & r & E & Hc).
    change (packed (e :: t)) with (encoded e ++ packed t). rewrite E.
    apply inRange_typecode, Hc.
Qed.

Lemma subspace_range_witness :
  inRange (subspace.b otherSubspace ++ [Byte.x00])
          (subspace.b otherSubspace ++ [Byte.xff]) otherKey = true /\
  subspace.Contains otherSubspace otherKey = true /\
  forallb supported [EString user] = true /\
  forallb wfElement [EString user] = true /\
  [EString user] <> [] /\
  subspace.Pack otherSubspace [EString user] = Ok otherKey /\
  inRange (subspace.b otherSubspace ++ [Byte.x00])
          (subspace.b otherSubspace ++ [Byte.xff]) otherKey = true.
Proof.
  assert (H1 : inRange (subspace.b otherSubspace ++ [Byte.x00])
                       (subspace.b otherSubspace ++ [Byte.xff]) otherKey = true)
    by reflexivity.
  assert (H2 : forallb supported [EString user] = true) by reflexivity.
  assert (H3 : forallb wfElement [EString user] = true) by reflexivity.
  assert (H4 : [EString user] <> []) by discriminate.
  assert (H5 : subspace.Pack otherSubspace [EString user] = Ok otherKey) by reflexivity.
  split; [exact H1|].
  split; [exact (proj1 (proj2 (subspace_range otherSubspace)) otherKey H1)|].
  repeat (split; [assumption|]).
  exact (proj2 (proj2 (proj2 (subspace_range otherSubspace)))
           [EString user] otherKey H2 H3 H4 H5).
Defined.

(** X19.  The subspace made from a tuple has the range of the tuple:
    [Sub(el)] followed by [LexRangeKeys], or by [LexRangeKeySelectors],
    gives what the same method of the tuple [el] gives, also when [Pack]
    panics; and the selectors are those of the [KeyRange] of the two
    keys: each the first key greater than or equal to its key. *)
Theorem Sub_range_agrees (el : Tuple) :
  (s <- subspace.Sub el ;; subspace.LexRangeKeys s) = tuple.LexRangeKeys el /\
  (s <- subspace.Sub el ;; subspace.LexRangeKeySelectors s)
  = tuple.LexRangeKeySelectors el /\
  tuple.LexRangeKeySelectors el
  = ('(b, e) <- tuple.LexRangeKeys el ;;
     Ok (lex.KeyRange_LexRangeKeySelectors
           {| lex.KeyRange_Begin := b; lex.KeyRange_End := e |})) /\
  forall b e,
    tuple.LexRangeKeySelectors el = Ok (b, e) ->
    lex.OrEqual b = false /\ lex.Offset b = 1 /\
    lex.OrEqual e = false /\ lex.Offset e = 1 /\
    tuple.LexRangeKeys el = Ok (lex.KeySelector_Key b, lex.KeySelector_Key e).
Proof.
  unfold subspace.Sub, subspace.LexRangeKeySelectors, tuple.LexRangeKeySelectors,
    subspace.LexRangeKeys, tuple.LexRangeKeys.
  destruct (Pack el) as [p| |]; cbn [bind subspace.b].
  - rewrite ?concat_app, ?subspace_concat_app. cbn [bind].
    repeat split; try reflexivity;
      injection H as <- <-; reflexivity.
  - repeat split; try reflexivity; discriminate.
  - repeat split; try reflexivity; discriminate.
Qed.

(** X20.  The subspace of all keys is the tuple layer itself: it
    contains every key, its [Unpack] is [tuple.Unpack], its [Pack] is
    [Tuple.Pack], and extending it is the package function [Sub], each
    also where the tuple layer panics or fails; and [FromBytes] keeps the
    bytes it is given. *)
Theorem AllKeys_neutral (k spare : list byte) (t : Tuple) :
  subspace.Contains subspace.AllKeys k = true /\
  subspace.Unpack_cap subspace.AllKeys k spare = tuple.Unpack_cap k spare /\
  subspace.Pack subspace.AllKeys t = tuple.Pack t /\
  subspace.Sub_of subspace.AllKeys t = subspace.Sub t /\
  subspace.Bytes (subspace.FromBytes k) = k.
Proof.
  split; [apply HasPrefix_nil|].
  split; [apply (subspace_Unpack_prefixed subspace.AllKeys k spare)|].
  split; [|split].
  - unfold subspace.Pack. destruct (Pack t) as [p| |]; cbn [bind]; try reflexivity.
    apply subspace_concat_app.
  - unfold subspace.Sub_of, subspace.Sub.
    destruct (Pack t) as [p| |]; cbn [bind]; try reflexivity.
    unfold subspace.Bytes. cbn [subspace.b subspace.AllKeys].
    rewrite subspace_concat_app. reflexivity.
  - unfold subspace.Bytes, subspace.FromBytes. cbn [subspace.b].
    apply copy_fill. unfold len. apply make_length.
Qed.

Lemma Sub_range_agrees_witness :
  tuple.LexRangeKeySelectors [ENil]
  = Ok (lex.FirstGreaterOrEqual [Byte.x00; Byte.x00],
        lex.FirstGreaterOrEqual [Byte.x00; Byte.xff]) /\
  lex.OrEqual (lex.FirstGreaterOrEqual [Byte.x00; Byte.x00]) = false /\
  lex.Offset (lex.FirstGreaterOrEqual [Byte.x00; Byte.x00]) = 1 /\
  lex.OrEqual (lex.FirstGreaterOrEqual [Byte.x00; Byte.xff]) = false /\
  lex.Offset (lex.FirstGreaterOrEqual [Byte.x00; Byte.xff]) = 1 /\
  tuple.LexRangeKeys [ENil]
  = Ok (lex.KeySelector_Key (lex.FirstGreaterOrEqual [Byte.x00; Byte.x00]),
        lex.KeySelector_Key (lex.FirstGreaterOrEqual [Byte.x00; Byte.xff])).
Proof.
  assert (H : tuple.LexRangeKeySelectors [ENil]
              = Ok (lex.FirstGreaterOrEqual [Byte.x00; Byte.x00],
                    lex.FirstGreaterOrEqual [Byte.x00; Byte.xff])) by reflexivity.
  split; [exact H|].
  exact (proj2 (proj2 (proj2 (Sub_range_agrees [ENil]))) _ _ H).
Defined.

(** ** Integers that encodeInt does not write *)

(** X21.  [decodeInt] reads any payload of the announced width, minimal
    or not: for a tag 0x14 + n it returns the big-endian value of the
    [n] payload bytes, as an [int64]; for a tag 0x14 - n, that value less
    the size limit [2^(8n) - 1], as an [int64]; and [n + 1] as the number
    of bytes consumed.  So [15 00] and [13 FF] decode to 0, as [14]
    does. *)
Theorem decodeInt_any_payload (n : nat) (v : Z) (rest spare : list byte) :
  (1 <= n <= 8)%nat -> 0 <= v < 2 ^ (8 * Z.of_nat n) ->
  decodeInt (mkbyte (20 + Z.of_nat n) :: binary.bigEndian n v ++ rest) spare
  = Ok (int64 v, Z.of_nat n + 1) /\
  decodeInt (mkbyte (20 - Z.of_nat n) :: binary.bigEndian n v ++ rest) spare
  = Ok (int64 (v - (2 ^ (8 * Z.of_nat n) - 1)), Z.of_nat n + 1).
Proof.
  intros Hn Hv. unfold decodeInt. rewrite !index_head. cbn [bind].
  rewrite !byteZ_mkbyte_small by lia.
  replace (20 + Z.of_nat n =? 20) with false by (symmetry; apply Z.eqb_neq; lia).
  replace (20 - Z.of_nat n =? 20) with false by (symmetry; apply Z.eqb_neq; lia).
  replace (20 + Z.of_nat n - 20 <? 0) with false by (symmetry; apply Z.ltb_ge; lia).
  replace (20 - Z.of_nat n - 20 <? 0) with true by (symmetry; apply Z.ltb_lt; lia).
  replace (20 + Z.of_nat n - 20) with (Z.of_nat n) by lia.
  replace (- (20 - Z.of_nat n - 20)) with (Z.of_nat n) by lia.
  assert (Hsl : forall c : byte,
             slice (c :: binary.bigEndian n v ++ rest) spare 1 (Z.of_nat n + 1)
             = Ok (binary.bigEndian n v)).
  { intros c.
    change (c :: binary.bigEndian n v ++ rest)
      with ([c] ++ binary.bigEndian n v ++ rest).
    change 1 with (len [c]) at 1.
    apply slice_middle. unfold len. rewrite bigEndian_length. cbn [List.length]. lia. }
  rewrite !Hsl. cbn [bind].
  rewrite copyAt_make8 by (try lia; apply bigEndian_length). cbn [bind].
  rewrite Read_padded by lia.
  split; [reflexivity|].
  rewrite index_sizeLimits by lia. cbn [bind]. do 2 f_equal.
  set (l := 2 ^ (8 * Z.of_nat n) - 1).
  destruct (int64_decompose v) as [k1 Hk1].
  destruct (int64_decompose l) as [k2 Hk2].
  destruct (int64_decompose (v - l)) as [k3 Hk3].
  apply (int64_unique _ _ (k3 + k2 - k1)); [apply int64_range | lia].
Qed.

Lemma decodeInt_any_payload_witness :
  (1 <= 1 <= 8)%nat /\ 0 <= 255 < 2 ^ (8 * Z.of_nat 1) /\
  decodeInt (mkbyte (20 + Z.of_nat 1) :: binary.bigEndian 1 255 ++ []) []
  = Ok (int64 255, Z.of_nat 1 + 1) /\
  decodeInt (mkbyte (20 - Z.of_nat 1) :: binary.bigEndian 1 255 ++ []) []
  = Ok (int64 (255 - (2 ^ (8 * Z.of_nat 1) - 1)), Z.of_nat 1 + 1).
Proof.
  assert (H1 : (1 <= 1 <= 8)%nat) by (split; repeat constructor).
  assert (H2 : 0 <= 255 < 2 ^ (8 * Z.of_nat 1)) by (split; [discriminate | reflexivity]).
  split; [exact H1|]. split; [exact H2|].
  exact (decodeInt_any_payload 1 255 [] [] H1 H2).
Defined.
